(** * WSSClient: the secure WebSocket client of CppServer

    A shallow embedding of [include/server/ws/wss_client.h] together with
    the parts of the WebSocket engine the header calls but does not
    define (the frame codec of [ws.h], the receive path and the close
    state machine).  The header's own code is embedded as it is written;
    the absent parts are modelled from the specification and marked as
    such. *)

From Stdlib Require Import NArith ZArith Lia Bool.
From Stdlib Require Import Strings.Byte.
From stdpp Require Import base list strings.

Local Open Scope N_scope.

(** ** Bytes (uint8_t) *)

Module U8.

(** The numeric value of a byte, 0..255. *)
Definition val (b : byte) : N := Byte.to_N b.

(** Truncation of an unsigned number to its low 8 bits, as the
    conversion to [uint8_t] does. *)
Definition of_N (n : N) : byte :=
  match Byte.of_N (n mod 256) with
  | Some b => b
  | None => "000"%byte
  end.

(** [a ^ b] on [uint8_t]. *)
Definition xor (a b : byte) : byte := of_N (N.lxor (val a) (val b)).

(** A big-endian unsigned number of [k] bytes: the most significant
    byte first. *)
Fixpoint be_bytes (k : nat) (v : N) : list byte :=
  match k with
  | O => []
  | S k' => of_N (N.shiftr v (8 * N.of_nat k')) :: be_bytes k' v
  end.

(** The number a big-endian byte sequence denotes. *)
Definition be_value (l : list byte) : N :=
  fold_left (fun acc b => acc * 256 + val b) l 0.

End U8.

(** ** FrameCodec: RFC 6455 client framing

    [PrepareSendFrame] and the decoder are declared in [ws.h] and
    defined in [ws.cpp]; neither file is part of the sources at hand. *)

Module FrameCodec.

(** Modelled from the spec: the opcodes of ws.h (absent): 0x0
    continuation, 0x1 text, 0x2 binary, 0x8 close, 0x9 ping, 0xA pong. *)
Inductive Opcode := Continuation | Text | Binary | Close | Ping | Pong.

Definition opcode_code (op : Opcode) : N :=
  match op with
  | Continuation => 0 | Text => 1 | Binary => 2
  | Close => 8 | Ping => 9 | Pong => 10
  end.

Definition opcode_of_code (c : N) : option Opcode :=
  match c with
  | 0 => Some Continuation | 1 => Some Text | 2 => Some Binary
  | 8 => Some Close | 9 => Some Ping | 10 => Some Pong
  | _ => None
  end.

Definition opcode_eqb (a b : Opcode) : bool := opcode_code a =? opcode_code b.

(** Modelled from the spec: a Frame (ws.h, absent): opcode, fin flag,
    payload and, for a Close frame, the status code carried by the
    first two payload bytes. *)
Record Frame := mkFrame {
  opcode : Opcode;
  fin : bool;
  payload : list byte;
  closeStatus : option N
}.

(** The data-model invariant: the payload of a Close frame is empty or
    at least two bytes long. *)
Definition frame_ok (f : Frame) : bool :=
  match opcode f with
  | Close => (length (payload f) =? 0)%nat || (2 <=? length (payload f))%nat
  | _ => true
  end.

(** The 32-bit masking key, as the four bytes that go on the wire. *)
Record MaskKey := mkKey { k0 : byte; k1 : byte; k2 : byte; k3 : byte }.

Definition key_bytes (k : MaskKey) : list byte := [k0 k; k1 k; k2 k; k3 k].

Definition key_at (k : MaskKey) (i : nat) : byte :=
  match i with
  | 0%nat => k0 k | 1%nat => k1 k | 2%nat => k2 k | _ => k3 k
  end.

(** Modelled from the spec: masking (ws.cpp, absent).  Payload bytes
    are XORed with the mask key cycling every 4 bytes; [i] is the index
    of the first byte of [l] within the payload. *)
Fixpoint mask_from (k : MaskKey) (i : nat) (l : list byte) : list byte :=
  match l with
  | [] => []
  | b :: l' => U8.xor b (key_at k (i mod 4)) :: mask_from k (S i) l'
  end.

Definition mask_payload (k : MaskKey) (l : list byte) : list byte :=
  mask_from k 0 l.

(** Modelled from the spec: header byte 1 of a frame (ws.cpp,
    absent): fin(1) rsv(3) opcode(4), rsv being zero. *)
Definition header_byte (fin : bool) (op : Opcode) : byte :=
  U8.of_N ((if fin then 128 else 0) + opcode_code op).

(** Modelled from the spec: header byte 2 of a client frame and the
    extended length that follows it (ws.cpp, absent): mask bit 1 and a
    7-bit field holding a length up to 125, or 126 and a 16-bit
    big-endian length, or 127 and a 64-bit big-endian length. *)
Definition length_field (len : N) : list byte :=
  if len <=? 125 then [U8.of_N (128 + len)]
  else if len <=? 65535 then U8.of_N (128 + 126) :: U8.be_bytes 2 len
  else U8.of_N (128 + 127) :: U8.be_bytes 8 len.

(** Modelled from the spec: what a frame carries (ws.cpp, absent).
    For Close frames the 2-byte big-endian status code is prepended to
    the payload, and an absent status means no payload. *)
Definition logical_payload (op : Opcode) (data : list byte)
    (status : option N) : list byte :=
  match op with
  | Close =>
      match status with
      | Some s => U8.be_bytes 2 s ++ data
      | None => []
      end
  | _ => data
  end.

(** Modelled from the spec: [Encode], the body of [PrepareSendFrame]
    (defined in ws.cpp, absent).  Fin is always 1, the mask bit is
    always 1, the mask key [key] is the one drawn for this frame. *)
Definition Encode (op : Opcode) (data : list byte) (status : option N)
    (key : MaskKey) : list byte :=
  let body := logical_payload op data status in
  header_byte true op
    :: length_field (N.of_nat (length body))
    ++ key_bytes key
    ++ mask_payload key body.

(** The fields of a frame as the wire format lays them out: the mask
    bit and 7-bit length of byte 1, and the extended lengths that may
    follow it. *)
Definition mask_bit (frame : list byte) : bool :=
  match frame !! 1%nat with
  | Some b1 => N.testbit (U8.val b1) 7
  | None => false
  end.

Definition len7 (frame : list byte) : N :=
  match frame !! 1%nat with
  | Some b1 => N.land (U8.val b1) 127
  | None => 0
  end.

Definition len16 (frame : list byte) : N := U8.be_value (take 2 (drop 2 frame)).

Definition len64 (frame : list byte) : N := U8.be_value (take 8 (drop 2 frame)).

(** Why a decode failed. *)
Inductive Fault :=
| InvalidOpcode
| LengthOverflow
| TruncatedHeader
| BadClosePayload
| InconsistentFragmentation.

Inductive ParseResult :=
| PFault (why : Fault)
| PIncomplete
| PFrame (f : Frame) (rest : list byte).

(** Number of extended-length bytes announced by the 7-bit field. *)
Definition ext_len_size (len7 : N) : nat :=
  if len7 =? 126 then 2%nat else if len7 =? 127 then 8%nat else 0%nat.

(** [size_t] is 64 bits wide: a length overflows when the frame it
    announces (header and payload) no longer fits. *)
Definition size_max : N := 2 ^ 64.

Definition close_status (op : Opcode) (body : list byte) : option N :=
  match op with
  | Close => if (2 <=? length body)%nat then Some (U8.be_value (take 2 body)) else None
  | _ => None
  end.

(** Modelled from the spec: parsing of one frame at the head of the
    received bytes (the decoder of ws.cpp, absent).  A header that is
    cut short, an opcode outside the six defined ones and a length
    that overflows are faults; a complete header whose payload has not
    fully arrived leaves the bytes for the next delivery.  A payload
    is unmasked exactly when the frame's mask bit is set, so frames
    sent by a server (mask bit 0) are taken as they are. *)
Definition parse_frame (bytes : list byte) : ParseResult :=
  match bytes with
  | b0 :: b1 :: rest =>
      match opcode_of_code (N.land (U8.val b0) 15) with
      | None => PFault InvalidOpcode
      | Some op =>
          let fin := N.testbit (U8.val b0) 7 in
          let masked := N.testbit (U8.val b1) 7 in
          let len7 := N.land (U8.val b1) 127 in
          let ext := ext_len_size len7 in
          let key_size := if masked then 4%nat else 0%nat in
          if (length rest <? ext + key_size)%nat then PFault TruncatedHeader
          else
            let len := if (ext =? 0)%nat then len7 else U8.be_value (take ext rest) in
            let after_len := drop ext rest in
            let header_size := N.of_nat (2 + ext + key_size) in
            if size_max <=? header_size + len then PFault LengthOverflow
            else
              let body_bytes := drop key_size after_len in
              if (N.of_nat (length body_bytes) <? len) then PIncomplete
              else
                let raw := take (N.to_nat len) body_bytes in
                let body :=
                  match take key_size after_len with
                  | [a; b; c; d] => mask_payload (mkKey a b c d) raw
                  | _ => raw
                  end in
                if opcode_eqb op Close && (length body =? 1)%nat
                then PFault BadClosePayload
                else PFrame (mkFrame op fin body (close_status op body))
                            (drop (N.to_nat len) body_bytes)
      end
  | _ => PFault TruncatedHeader
  end.

(** The ways the head of a byte sequence can fail to be a frame, read
    off the wire format: the opcode field is none of the six opcodes;
    some but not all bytes of the header are there; the header is
    there and the length it announces overflows. *)
Definition opcode_field (bytes : list byte) : N :=
  match bytes !! 0%nat with
  | Some b0 => N.land (U8.val b0) 15
  | None => 0
  end.

Definition header_size (bytes : list byte) : nat :=
  2 + ext_len_size (len7 bytes) + (if mask_bit bytes then 4 else 0).

Definition announced_length (bytes : list byte) : N :=
  if len7 bytes =? 126 then len16 bytes
  else if len7 bytes =? 127 then len64 bytes
  else len7 bytes.

Definition invalid_opcode (bytes : list byte) : bool :=
  (2 <=? length bytes)%nat
  && negb (existsb (N.eqb (opcode_field bytes)) [0; 1; 2; 8; 9; 10]).

Definition truncated_header (bytes : list byte) : bool :=
  (0 <? length bytes)%nat && (length bytes <? header_size bytes)%nat.

Definition length_overflows (bytes : list byte) : bool :=
  (header_size bytes <=? length bytes)%nat
  && (size_max <=? N.of_nat (header_size bytes) + announced_length bytes).

Definition malformed (bytes : list byte) : bool :=
  invalid_opcode bytes || truncated_header bytes || length_overflows bytes.

Inductive DecodeResult :=
| ProtocolError (why : Fault)
| Decoded (frames : list Frame) (leftover : list byte).

(** Frames are parsed one after the other until the bytes are used up
    or the next frame is incomplete; every frame takes at least two
    bytes, so [fuel] = number of bytes is always enough. *)
Fixpoint decode_loop (fuel : nat) (bytes : list byte) : DecodeResult :=
  match bytes with
  | [] => Decoded [] []
  | _ :: _ =>
      match fuel with
      | O => Decoded [] bytes
      | S fuel' =>
          match parse_frame bytes with
          | PFault why => ProtocolError why
          | PIncomplete => Decoded [] bytes
          | PFrame f rest =>
              match decode_loop fuel' rest with
              | ProtocolError why => ProtocolError why
              | Decoded fs leftover => Decoded (f :: fs) leftover
              end
          end
      end
  end.

(** Modelled from the spec: [Decode], from received bytes to zero or
    more complete frames plus the unconsumed bytes, or a protocol
    error. *)
Definition Decode (bytes : list byte) : DecodeResult :=
  decode_loop (length bytes) bytes.

(** How a run of the decoder over the received bytes ends: with the
    bytes of a frame still to be completed, or on a fault. *)
Inductive StreamEnd :=
| Rest (leftover : list byte)
| Broken (why : Fault).

Fixpoint stream_loop (fuel : nat) (bytes : list byte) : list Frame * StreamEnd :=
  match bytes with
  | [] => ([], Rest [])
  | _ :: _ =>
      match fuel with
      | O => ([], Rest bytes)
      | S fuel' =>
          match parse_frame bytes with
          | PFault why => ([], Broken why)
          | PIncomplete => ([], Rest bytes)
          | PFrame f rest =>
              let '(fs, ending) := stream_loop fuel' rest in (f :: fs, ending)
          end
      end
  end.

(** Modelled from the spec: the decoder as the receive path runs it
    (ws.cpp, absent): the same frame by frame run as [Decode], giving
    the frames completed before it stopped, in order, and how it
    stopped.  [Decode] is its outcome: the frames and the leftover
    bytes, or the fault. *)
Definition decode_stream (bytes : list byte) : list Frame * StreamEnd :=
  stream_loop (length bytes) bytes.

End FrameCodec.

Import FrameCodec.

(** ** The secure HTTP transport the client derives from *)

(** [CppCommon::Timespan], opaque to this header: a number of
    nanoseconds. *)
Definition Timespan := Z.

Module HTTPS.

(** The members of [HTTP::HTTPSClient] the header calls.  Their bodies
    live in the transport; each one takes the transport from one state
    to the next and returns what the C++ member returns. *)
Class HTTPSClient (T : Type) := {
  Send : list byte -> T -> N * T;
  SendTimeout : list byte -> Timespan -> T -> N * T;
  SendAsync : list byte -> T -> bool * T;
  Disconnect : T -> bool * T;
  DisconnectAsync : T -> bool * T
}.

(** The same transport, except that the byte count of a synchronous
    send and the verdict of an asynchronous send are reported through
    [count] and [verdict]; what the transport itself becomes is left
    alone. *)
Definition reporting {T : Type} (count : N -> N) (verdict : bool -> bool)
    (tr : HTTPSClient T) : HTTPSClient T := {|
  Send bytes t := let '(n, t') := @Send T tr bytes t in (count n, t');
  SendTimeout bytes timeout t :=
    let '(n, t') := @SendTimeout T tr bytes timeout t in (count n, t');
  SendAsync bytes t := let '(ok, t') := @SendAsync T tr bytes t in (verdict ok, t');
  Disconnect := @Disconnect T tr;
  DisconnectAsync := @DisconnectAsync T tr
|}.

(** What the transport is asked to do, in call order. *)
Inductive Call :=
| CallSend (bytes : list byte)
| CallSendTimeout (bytes : list byte) (timeout : Timespan)
| CallSendAsync (bytes : list byte)
| CallDisconnect
| CallDisconnectAsync.

(** A stand-in transport for examples: whether it is connected and the
    bytes written so far.  Nothing is sent when it is not connected. *)
Record Pipe := mkPipe { connected : bool; written : list byte }.

Definition pipe_write (bytes : list byte) (p : Pipe) : N * Pipe :=
  if connected p
  then (N.of_nat (length bytes), mkPipe true (written p ++ bytes))
  else (0, p).

Definition pipe : HTTPSClient Pipe := {|
  Send := pipe_write;
  SendTimeout bytes _ := pipe_write bytes;
  SendAsync bytes p := (connected p, snd (pipe_write bytes p));
  Disconnect p := (connected p, mkPipe false (written p));
  DisconnectAsync p := (connected p, mkPipe false (written p))
|}.

End HTTPS.

Import HTTPS.

(** ** WSSClient (wss_client.h) *)

Module WSSClient.

(** [asio::error] codes passed to [onError]. *)
Inductive AsioError := asio_error_fault | asio_error_code (code : Z).

(** One notification on the client's error channel: the arguments of
    [onError(error, category, message)]. *)
Record ErrorReport := mkError {
  err_code : AsioError;
  err_category : string;
  err_message : string
}.

(** The state of one client object: the transport base; the send
    buffer of the WebSocket base and its random source, given as the
    sequence of mask keys it will produce and how many were drawn; the
    [_sync_connect] flag of the class itself; and the record of what
    was asked of the transport and what was reported to the error
    handler. *)
Record t (T : Type) := mk {
  transport : T;
  ws_send_buffer : list byte;
  ws_random : nat -> MaskKey;
  ws_random_pos : nat;
  sync_connect : bool;
  calls : list Call;
  errors : list ErrorReport
}.
Arguments mk {T}.
Arguments transport {T}.
Arguments ws_send_buffer {T}.
Arguments ws_random {T}.
Arguments ws_random_pos {T}.
Arguments sync_connect {T}.
Arguments calls {T}.
Arguments errors {T}.

Definition WS_TEXT := Text.
Definition WS_BINARY := Binary.
Definition WS_CLOSE := Close.
Definition WS_PING := Ping.
Definition WS_PONG := Pong.

(** A [const void*] is the bytes readable from that address on;
    nothing is readable at [nullptr]. *)
Definition nullptr : list byte := [].

(** [std::string_view]: [data()] and [size()]. *)
Definition sv_data (text : string) : list byte := String.list_byte_of_string text.
Definition sv_size (text : string) : nat := String.length text.

(** [int status] as the 16-bit code that goes on the wire. *)
Definition status_u16 (status : Z) : N := Z.to_N (status mod 65536).

Section Methods.
Context {T : Type} `{HTTPSClient T}.

(** Modelled from the spec: [PrepareSendFrame(opcode, buffer, size,
    status)] of the WebSocket base (ws.cpp, absent).  It clears
    [_ws_send_buffer] and fills it with [Encode] of the [size] bytes at
    [buffer], under a mask key drawn from the random source; [status]
    is the close status, 0 where the caller passes none. *)
Definition PrepareSendFrame (op : Opcode) (buffer : list byte) (size : nat)
    (status : Z) (c : t T) : t T :=
  let key := ws_random c (ws_random_pos c) in
  mk (transport c)
     (Encode op (take size buffer) (Some (status_u16 status)) key)
     (ws_random c) (S (ws_random_pos c))
     (sync_connect c) (calls c) (errors c).

Definition with_transport (c : t T) (tr : T) (call : Call) : t T :=
  mk tr (ws_send_buffer c) (ws_random c) (ws_random_pos c)
     (sync_connect c) (calls c ++ [call]) (errors c).

(** The inherited [HTTPSClient::] members, acting on the transport
    part of the client. *)
Definition HTTPSClient_Send (bytes : list byte) (c : t T) : N * t T :=
  let '(n, tr) := Send bytes (transport c) in
  (n, with_transport c tr (CallSend bytes)).

Definition HTTPSClient_SendTimeout (bytes : list byte) (timeout : Timespan)
    (c : t T) : N * t T :=
  let '(n, tr) := SendTimeout bytes timeout (transport c) in
  (n, with_transport c tr (CallSendTimeout bytes timeout)).

Definition HTTPSClient_SendAsync (bytes : list byte) (c : t T) : bool * t T :=
  let '(ok, tr) := SendAsync bytes (transport c) in
  (ok, with_transport c tr (CallSendAsync bytes)).

Definition HTTPSClient_Disconnect (c : t T) : bool * t T :=
  let '(ok, tr) := HTTPS.Disconnect (transport c) in
  (ok, with_transport c tr CallDisconnect).

Definition HTTPSClient_DisconnectAsync (c : t T) : bool * t T :=
  let '(ok, tr) := HTTPS.DisconnectAsync (transport c) in
  (ok, with_transport c tr CallDisconnectAsync).

(** [onError(error, category, message)], the error handler the client
    inherits from the transport: the notification is put on the error
    channel. *)
Definition onError (e : AsioError) (category message : string) (c : t T) : t T :=
  mk (transport c) (ws_send_buffer c) (ws_random c) (ws_random_pos c)
     (sync_connect c) (calls c) (errors c ++ [mkError e category message]).

(** *** WebSocket send text methods *)
Definition SendText (buffer : list byte) (size : nat) (c : t T) : N * t T :=
  let c := PrepareSendFrame WS_TEXT buffer size 0 c in
  HTTPSClient_Send (ws_send_buffer c) c.
Definition SendText_sv (text : string) (c : t T) : N * t T :=
  let c := PrepareSendFrame WS_TEXT (sv_data text) (sv_size text) 0 c in
  HTTPSClient_Send (ws_send_buffer c) c.
Definition SendText_t (buffer : list byte) (size : nat) (timeout : Timespan)
    (c : t T) : N * t T :=
  let c := PrepareSendFrame WS_TEXT buffer size 0 c in
  HTTPSClient_SendTimeout (ws_send_buffer c) timeout c.
Definition SendText_sv_t (text : string) (timeout : Timespan) (c : t T) : N * t T :=
  let c := PrepareSendFrame WS_TEXT (sv_data text) (sv_size text) 0 c in
  HTTPSClient_SendTimeout (ws_send_buffer c) timeout c.
Definition SendTextAsync (buffer : list byte) (size : nat) (c : t T) : bool * t T :=
  let c := PrepareSendFrame WS_TEXT buffer size 0 c in
  HTTPSClient_SendAsync (ws_send_buffer c) c.
Definition SendTextAsync_sv (text : string) (c : t T) : bool * t T :=
  let c := PrepareSendFrame WS_TEXT (sv_data text) (sv_size text) 0 c in
  HTTPSClient_SendAsync (ws_send_buffer c) c.

(** *** WebSocket send binary methods *)
Definition SendBinary (buffer : list byte) (size : nat) (c : t T) : N * t T :=
  let c := PrepareSendFrame WS_BINARY buffer size 0 c in
  HTTPSClient_Send (ws_send_buffer c) c.
Definition SendBinary_sv (text : string) (c : t T) : N * t T :=
  let c := PrepareSendFrame WS_BINARY (sv_data text) (sv_size text) 0 c in
  HTTPSClient_Send (ws_send_buffer c) c.
Definition SendBinary_t (buffer : list byte) (size : nat) (timeout : Timespan)
    (c : t T) : N * t T :=
  let c := PrepareSendFrame WS_BINARY buffer size 0 c in
  HTTPSClient_SendTimeout (ws_send_buffer c) timeout c.
Definition SendBinary_sv_t (text : string) (timeout : Timespan) (c : t T) : N * t T :=
  let c := PrepareSendFrame WS_BINARY (sv_data text) (sv_size text) 0 c in
  HTTPSClient_SendTimeout (ws_send_buffer c) timeout c.
Definition SendBinaryAsync (buffer : list byte) (size : nat) (c : t T) : bool * t T :=
  let c := PrepareSendFrame WS_BINARY buffer size 0 c in
  HTTPSClient_SendAsync (ws_send_buffer c) c.
Definition SendBinaryAsync_sv (text : string) (c : t T) : bool * t T :=
  let c := PrepareSendFrame WS_BINARY (sv_data text) (sv_size text) 0 c in
  HTTPSClient_SendAsync (ws_send_buffer c) c.

(** *** WebSocket close methods *)
Definition SendClose (status : Z) (buffer : list byte) (size : nat)
    (c : t T) : N * t T :=
  let c := PrepareSendFrame WS_CLOSE buffer size status c in
  HTTPSClient_Send (ws_send_buffer c) c.
Definition SendClose_sv (status : Z) (text : string) (c : t T) : N * t T :=
  let c := PrepareSendFrame WS_CLOSE (sv_data text) (sv_size text) status c in
  HTTPSClient_Send (ws_send_buffer c) c.
Definition SendClose_t (status : Z) (buffer : list byte) (size : nat)
    (timeout : Timespan) (c : t T) : N * t T :=
  let c := PrepareSendFrame WS_CLOSE buffer size status c in
  HTTPSClient_SendTimeout (ws_send_buffer c) timeout c.
Definition SendClose_sv_t (status : Z) (text : string) (timeout : Timespan)
    (c : t T) : N * t T :=
  let c := PrepareSendFrame WS_CLOSE (sv_data text) (sv_size text) status c in
  HTTPSClient_SendTimeout (ws_send_buffer c) timeout c.
Definition SendCloseAsync (status : Z) (buffer : list byte) (size : nat)
    (c : t T) : bool * t T :=
  let c := PrepareSendFrame WS_CLOSE buffer size status c in
  HTTPSClient_SendAsync (ws_send_buffer c) c.
Definition SendCloseAsync_sv (status : Z) (text : string) (c : t T) : bool * t T :=
  let c := PrepareSendFrame WS_CLOSE (sv_data text) (sv_size text) status c in
  HTTPSClient_SendAsync (ws_send_buffer c) c.

(** *** WebSocket ping methods *)
Definition SendPing (buffer : list byte) (size : nat) (c : t T) : N * t T :=
  let c := PrepareSendFrame WS_PING buffer size 0 c in
  HTTPSClient_Send (ws_send_buffer c) c.
Definition SendPing_sv (text : string) (c : t T) : N * t T :=
  let c := PrepareSendFrame WS_PING (sv_data text) (sv_size text) 0 c in
  HTTPSClient_Send (ws_send_buffer c) c.
Definition SendPing_t (buffer : list byte) (size : nat) (timeout : Timespan)
    (c : t T) : N * t T :=
  let c := PrepareSendFrame WS_PING buffer size 0 c in
  HTTPSClient_SendTimeout (ws_send_buffer c) timeout c.
Definition SendPing_sv_t (text : string) (timeout : Timespan) (c : t T) : N * t T :=
  let c := PrepareSendFrame WS_PING (sv_data text) (sv_size text) 0 c in
  HTTPSClient_SendTimeout (ws_send_buffer c) timeout c.
Definition SendPingAsync (buffer : list byte) (size : nat) (c : t T) : bool * t T :=
  let c := PrepareSendFrame WS_PING buffer size 0 c in
  HTTPSClient_SendAsync (ws_send_buffer c) c.
Definition SendPingAsync_sv (text : string) (c : t T) : bool * t T :=
  let c := PrepareSendFrame WS_PING (sv_data text) (sv_size text) 0 c in
  HTTPSClient_SendAsync (ws_send_buffer c) c.

(** *** WebSocket pong methods *)
Definition SendPong (buffer : list byte) (size : nat) (c : t T) : N * t T :=
  let c := PrepareSendFrame WS_PONG buffer size 0 c in
  HTTPSClient_Send (ws_send_buffer c) c.
Definition SendPong_sv (text : string) (c : t T) : N * t T :=
  let c := PrepareSendFrame WS_PONG (sv_data text) (sv_size text) 0 c in
  HTTPSClient_Send (ws_send_buffer c) c.
Definition SendPong_t (buffer : list byte) (size : nat) (timeout : Timespan)
    (c : t T) : N * t T :=
  let c := PrepareSendFrame WS_PONG buffer size 0 c in
  HTTPSClient_SendTimeout (ws_send_buffer c) timeout c.
Definition SendPong_sv_t (text : string) (timeout : Timespan) (c : t T) : N * t T :=
  let c := PrepareSendFrame WS_PONG (sv_data text) (sv_size text) 0 c in
  HTTPSClient_SendTimeout (ws_send_buffer c) timeout c.
Definition SendPongAsync (buffer : list byte) (size : nat) (c : t T) : bool * t T :=
  let c := PrepareSendFrame WS_PONG buffer size 0 c in
  HTTPSClient_SendAsync (ws_send_buffer c) c.
Definition SendPongAsync_sv (text : string) (c : t T) : bool * t T :=
  let c := PrepareSendFrame WS_PONG (sv_data text) (sv_size text) 0 c in
  HTTPSClient_SendAsync (ws_send_buffer c) c.

(** *** WebSocket connection methods *)
Definition Disconnect (c : t T) : bool * t T :=
  let '(_, c) := SendClose 1000 nullptr 0 c in
  HTTPSClient_Disconnect c.
Definition DisconnectAsync (c : t T) : bool * t T :=
  let '(_, c) := SendCloseAsync 1000 nullptr 0 c in
  HTTPSClient_DisconnectAsync c.

(** Handle WebSocket error notification. *)
Definition onWSError (message : string) (c : t T) : t T :=
  onError asio_error_fault "WebSocket error" message c.

(** *** The overload sets, for statements that range over them *)

Inductive Operation := OpText | OpBinary | OpClose (status : Z) | OpPing | OpPong.

Inductive Variant := Plain | WithTimeout (timeout : Timespan) | Asynchronous.

(** What a send method returns: a byte count ([size_t]) or an
    accepted/rejected verdict ([bool]). *)
Inductive Result := Count (n : N) | Verdict (ok : bool).

Definition counted (r : N * t T) : Result * t T := (Count (fst r), snd r).
Definition judged (r : bool * t T) : Result * t T := (Verdict (fst r), snd r).

(** The overloads taking [(const void* buffer, size_t size)]. *)
Definition call_buffer (o : Operation) (v : Variant) (buffer : list byte)
    (size : nat) (c : t T) : Result * t T :=
  match o, v with
  | OpText, Plain => counted (SendText buffer size c)
  | OpText, WithTimeout timeout => counted (SendText_t buffer size timeout c)
  | OpText, Asynchronous => judged (SendTextAsync buffer size c)
  | OpBinary, Plain => counted (SendBinary buffer size c)
  | OpBinary, WithTimeout timeout => counted (SendBinary_t buffer size timeout c)
  | OpBinary, Asynchronous => judged (SendBinaryAsync buffer size c)
  | OpClose status, Plain => counted (SendClose status buffer size c)
  | OpClose status, WithTimeout timeout =>
      counted (SendClose_t status buffer size timeout c)
  | OpClose status, Asynchronous => judged (SendCloseAsync status buffer size c)
  | OpPing, Plain => counted (SendPing buffer size c)
  | OpPing, WithTimeout timeout => counted (SendPing_t buffer size timeout c)
  | OpPing, Asynchronous => judged (SendPingAsync buffer size c)
  | OpPong, Plain => counted (SendPong buffer size c)
  | OpPong, WithTimeout timeout => counted (SendPong_t buffer size timeout c)
  | OpPong, Asynchronous => judged (SendPongAsync buffer size c)
  end.

(** The overloads taking [std::string_view]. *)
Definition call_view (o : Operation) (v : Variant) (text : string)
    (c : t T) : Result * t T :=
  match o, v with
  | OpText, Plain => counted (SendText_sv text c)
  | OpText, WithTimeout timeout => counted (SendText_sv_t text timeout c)
  | OpText, Asynchronous => judged (SendTextAsync_sv text c)
  | OpBinary, Plain => counted (SendBinary_sv text c)
  | OpBinary, WithTimeout timeout => counted (SendBinary_sv_t text timeout c)
  | OpBinary, Asynchronous => judged (SendBinaryAsync_sv text c)
  | OpClose status, Plain => counted (SendClose_sv status text c)
  | OpClose status, WithTimeout timeout =>
      counted (SendClose_sv_t status text timeout c)
  | OpClose status, Asynchronous => judged (SendCloseAsync_sv status text c)
  | OpPing, Plain => counted (SendPing_sv text c)
  | OpPing, WithTimeout timeout => counted (SendPing_sv_t text timeout c)
  | OpPing, Asynchronous => judged (SendPingAsync_sv text c)
  | OpPong, Plain => counted (SendPong_sv text c)
  | OpPong, WithTimeout timeout => counted (SendPong_sv_t text timeout c)
  | OpPong, Asynchronous => judged (SendPongAsync_sv text c)
  end.

End Methods.

End WSSClient.

(** ** The receive path and the close state machine

    [onReceived], [onDisconnected], [onHandshaked] and the [Receive*]
    members are declared in the header and defined in wss_client.cpp,
    which is not part of the sources at hand. *)

Module Engine.
Import WSSClient.

(** Modelled from the spec: ConnectionState (absent from the header). *)
Inductive ConnectionState :=
| Connecting | Open | ClosingLocal | ClosingRemote | Closed.

Inductive MessageKind := TextMessage | BinaryMessage.

(** Modelled from the spec: a completed message, tagged Text or
    Binary. *)
Record Message := mkMessage { kind : MessageKind; content : list byte }.

(** Modelled from the spec: the client together with the state the
    receive side keeps (members of the WebSocket base, absent):
    connection state, the bytes of a frame still to be completed, the
    fragmented message in progress, the receive queue, and the
    messages handed to a registered handler. *)
Record t (T : Type) := mk {
  client : WSSClient.t T;
  state : ConnectionState;
  received : list byte;
  pending : option Message;
  queue : list Message;
  handler : bool;
  handled : list Message
}.
Arguments mk {T}.
Arguments client {T}.
Arguments state {T}.
Arguments received {T}.
Arguments pending {T}.
Arguments queue {T}.
Arguments handler {T}.
Arguments handled {T}.

Definition is_closed (s : ConnectionState) : bool :=
  match s with Closed => true | _ => false end.

Definition fault_message (why : Fault) : string :=
  match why with
  | InvalidOpcode => "Invalid WebSocket opcode"
  | LengthOverflow => "Invalid WebSocket frame size"
  | TruncatedHeader => "Truncated WebSocket frame header"
  | BadClosePayload => "Invalid WebSocket close payload"
  | InconsistentFragmentation => "Inconsistent WebSocket fragmentation"
  end.

Section Receive.
Context {T : Type} `{HTTPSClient T}.

(** Modelled from the spec: the fault path of the receive side
    (wss_client.cpp, absent).  A protocol error is reported through
    [onWSError], the transport is disconnected, the connection is
    Closed and what was buffered is dropped. *)
Definition protocol_fault (why : Fault) (e : t T) : t T :=
  let c := onWSError (fault_message why) (client e) in
  let '(_, c) := HTTPSClient_DisconnectAsync c in
  mk c Closed [] None (queue e) (handler e) (handled e).

(** Modelled from the spec: a completed message goes to the
    registered handler if there is one and to the receive queue
    otherwise. *)
Definition deliver (m : Message) (e : t T) : t T :=
  if handler e
  then mk (client e) (state e) (received e) None (queue e) true (handled e ++ [m])
  else mk (client e) (state e) (received e) None (queue e ++ [m]) false (handled e).

Definition set_pending (p : option Message) (e : t T) : t T :=
  mk (client e) (state e) (received e) p (queue e) (handler e) (handled e).

(** Modelled from the spec: CloseNegotiator on a received Close
    frame.  While Open the engine answers with a Close frame of the
    same status code (1000 when none was received), then tears the
    transport down and is ClosingRemote; in any other state the
    frame changes nothing. *)
Definition on_close_frame (f : Frame) (e : t T) : t T :=
  match state e with
  | Open =>
      let status := default 1000 (closeStatus f) in
      let '(_, c) := SendCloseAsync (Z.of_N status) nullptr 0 (client e) in
      let '(_, c) := HTTPSClient_DisconnectAsync c in
      mk c ClosingRemote (received e) (pending e) (queue e)
         (handler e) (handled e)
  | _ => e
  end.

(** Modelled from the spec: what one decoded frame does (the
    dispatch of wss_client.cpp / ws.cpp, absent).  Data frames
    build messages, a fin=false frame opening a fragmented message
    that continuation frames extend until fin=true; fragmentation
    that does not follow this pattern is a protocol error. *)
Definition handle_frame (f : Frame) (e : t T) : t T :=
  if is_closed (state e) then e
  else
    match opcode f with
    | Close => on_close_frame f e
    | Ping | Pong => e
    | Text | Binary =>
        let k := match opcode f with Text => TextMessage | _ => BinaryMessage end in
        match pending e with
        | Some _ => protocol_fault InconsistentFragmentation e
        | None =>
            if fin f then deliver (mkMessage k (payload f)) e
            else set_pending (Some (mkMessage k (payload f))) e
        end
    | Continuation =>
        match pending e with
        | None => protocol_fault InconsistentFragmentation e
        | Some m =>
            let m' := mkMessage (kind m) (content m ++ payload f) in
            if fin f then deliver m' e else set_pending (Some m') e
        end
    end.

Definition handle_frames (fs : list Frame) (e : t T) : t T :=
  fold_left (fun e f => handle_frame f e) fs e.

(** The only calls the receive path makes once the connection is no
    longer open are disconnects. *)
Definition only_disconnects (later : list Call) : Prop :=
  Forall (fun call => call = CallDisconnectAsync) later.

(** Two engines that differ at most in the bytes kept for an
    incomplete frame. *)
Definition alike (e1 e2 : t T) : Prop :=
  client e1 = client e2 /\ state e1 = state e2 /\ pending e1 = pending e2
  /\ queue e1 = queue e2 /\ handler e1 = handler e2 /\ handled e1 = handled e2.

(** Modelled from the spec: [onReceived(buffer, size)]
    (wss_client.cpp, absent).  The bytes are appended to what was left
    over and decoded; the frames completed are handled in order, and
    if the decoder then stops on a fault the connection, unless a
    frame has closed it already, takes the fault path. *)
Definition onReceived (bytes : list byte) (e : t T) : t T :=
  if is_closed (state e) then e
  else
    match decode_stream (received e ++ bytes) with
    | (frames, Rest leftover) =>
        handle_frames frames
          (mk (client e) (state e) leftover (pending e) (queue e)
              (handler e) (handled e))
    | (frames, Broken why) =>
        let e' :=
          handle_frames frames
            (mk (client e) (state e) [] (pending e) (queue e)
                (handler e) (handled e)) in
        if is_closed (state e') then e' else protocol_fault why e'
    end.

(** Modelled from the spec: [onDisconnected()] forces the state to
    Closed and discards the pending message. *)
Definition onDisconnected (e : t T) : t T :=
  mk (client e) Closed (received e) None (queue e) (handler e) (handled e).

(** Modelled from the spec: [onHandshaked()] opens the connection. *)
Definition onHandshaked (e : t T) : t T :=
  match state e with
  | Connecting =>
      mk (client e) Open (received e) (pending e) (queue e)
         (handler e) (handled e)
  | _ => e
  end.

(** What the transport's I/O context may do to the engine. *)
Inductive IoEvent :=
| IoHandshaked
| IoReceived (bytes : list byte)
| IoDisconnected.

Definition io_event (ev : IoEvent) (e : t T) : t T :=
  match ev with
  | IoHandshaked => onHandshaked e
  | IoReceived bytes => onReceived bytes e
  | IoDisconnected => onDisconnected e
  end.

Definition io_events (evs : list IoEvent) (e : t T) : t T :=
  fold_left (fun e ev => io_event ev e) evs e.

(** Time is counted in ticks of the caller's clock; [io n] is what
    the I/O context delivers during tick [n]. *)
Definition IoSchedule := nat -> list IoEvent.

(** The engine after [k] ticks starting at tick [now], nobody
    receiving. *)
Fixpoint advance (io : IoSchedule) (now k : nat) (e : t T) : t T :=
  match k with
  | O => e
  | S k' => advance io (S now) k' (io_events (io now) e)
  end.

(** How a blocking receive ended. *)
Inductive WaitEnd :=
| GotMessage (m : Message)
| ConnectionClosed
| TimedOut.

(** Modelled from the spec: the wait of a blocking receive
    (wss_client.cpp, absent).  The caller is woken when the queue is
    non-empty, when the connection is Closed, or when [remaining]
    ticks have passed, whichever comes first; it gets the tick at
    which it woke and the engine as it then is. *)
Fixpoint wait_message (remaining : nat) (io : IoSchedule) (now : nat)
    (e : t T) : WaitEnd * nat * t T :=
  match queue e with
  | m :: q =>
      (GotMessage m, now,
       mk (client e) (state e) (received e) (pending e) q
          (handler e) (handled e))
  | [] =>
      if is_closed (state e) then (ConnectionClosed, now, e)
      else
        match remaining with
        | O => (TimedOut, now, e)
        | S r => wait_message r io (S now) (io_events (io now) e)
        end
  end.

(** The result handed to the caller: the message, or an empty
    result. *)
Definition result_bytes (w : WaitEnd) : list byte :=
  match w with
  | GotMessage m => content m
  | ConnectionClosed | TimedOut => []
  end.

Definition ticks (timeout : Timespan) : nat := Z.to_nat timeout.

(** Modelled from the spec: [ReceiveText(timeout)] and
    [ReceiveBinary(timeout)]. *)
Definition ReceiveText_t (timeout : Timespan) (io : IoSchedule) (now : nat)
    (e : t T) : string * nat * t T :=
  let '(w, woke, e') := wait_message (ticks timeout) io now e in
  (String.string_of_list_byte (result_bytes w), woke, e').

Definition ReceiveBinary_t (timeout : Timespan) (io : IoSchedule) (now : nat)
    (e : t T) : list byte * nat * t T :=
  let '(w, woke, e') := wait_message (ticks timeout) io now e in
  (result_bytes w, woke, e').

(** Modelled from the spec: [ReceiveText()] and [ReceiveBinary()]
    without a timeout.  The call may block for ever; [horizon] is
    how many ticks of it are observed, and [None] says the caller is
    still blocked at the end of them. *)
Definition ReceiveText (horizon : nat) (io : IoSchedule) (now : nat)
    (e : t T) : option (string * nat * t T) :=
  match wait_message horizon io now e with
  | (TimedOut, _, _) => None
  | (w, woke, e') => Some (String.string_of_list_byte (result_bytes w), woke, e')
  end.

Definition ReceiveBinary (horizon : nat) (io : IoSchedule) (now : nat)
    (e : t T) : option (list byte * nat * t T) :=
  match wait_message horizon io now e with
  | (TimedOut, _, _) => None
  | (w, woke, e') => Some (result_bytes w, woke, e')
  end.

End Receive.

End Engine.

(** ** SendGate: concurrent callers of the send methods

    Every [Send*]/[Send*Async] member has the same shape:
    [std::scoped_lock locker(_ws_send_lock); PrepareSendFrame(...);
     return HTTPSClient::Send...(_ws_send_buffer.data(), _ws_send_buffer.size());]
    Several threads may be inside such calls at once.  Each thread moves
    in atomic steps, and any thread that can move may be the next one to
    do so; the only thing a thread ever waits for is the lock. *)

Module SendGate.
Import WSSClient.

(** The transport member a send method ends with. *)
Inductive Mode := Sync | SyncTimeout (timeout : Timespan) | Async.

(** One call of a send method: the opcode it passes to
    [PrepareSendFrame], its buffer, size and status arguments, and the
    transport member it ends with. *)
Record Request := mkRequest {
  rq_opcode : Opcode;
  rq_buffer : list byte;
  rq_size : nat;
  rq_status : Z;
  rq_mode : Mode
}.

(** Where a thread is in its call. *)
Inductive Pc :=
| Calling                      (* before the scoped_lock is constructed *)
| Locked                       (* lock held, PrepareSendFrame not begun *)
| Filling (todo : list byte)   (* in PrepareSendFrame: buffer cleared, [todo] still to append *)
| Handed                       (* the transport member has returned *)
| Returned.                    (* scoped_lock destroyed, call returned *)

(** A thread: its call, where it is, and the mask key it drew (kept
    for the record once drawn). *)
Record Thread := mkThread {
  request : Request;
  pc : Pc;
  key : option MaskKey
}.

(** The client object shared by the threads, the owner of
    [_ws_send_lock] if it is held, and the threads. *)
Record System (T : Type) := mkSystem {
  client : WSSClient.t T;
  ws_send_lock : option nat;
  threads : list Thread
}.
Arguments mkSystem {T}.
Arguments client {T}.
Arguments ws_send_lock {T}.
Arguments threads {T}.

(** The frame a request is encoded to under mask key [k]. *)
Definition frame_of (r : Request) (k : MaskKey) : list byte :=
  Encode (rq_opcode r) (take (rq_size r) (rq_buffer r))
         (Some (status_u16 (rq_status r))) k.

(** The transport call a request ends with, for the bytes given. *)
Definition call_of (m : Mode) (bytes : list byte) : Call :=
  match m with
  | Sync => CallSend bytes
  | SyncTimeout timeout => CallSendTimeout bytes timeout
  | Async => CallSendAsync bytes
  end.

Section Steps.
Context {T : Type} `{HTTPSClient T}.

Definition set_buffer (buffer : list byte) (c : WSSClient.t T) : WSSClient.t T :=
  WSSClient.mk (transport c) buffer (ws_random c) (ws_random_pos c)
    (sync_connect c) (calls c) (errors c).

Definition draw_key (c : WSSClient.t T) : MaskKey * WSSClient.t T :=
  (ws_random c (ws_random_pos c),
   WSSClient.mk (transport c) (ws_send_buffer c) (ws_random c)
     (S (ws_random_pos c)) (sync_connect c) (calls c) (errors c)).

(** The transport member of mode [m] applied to the send buffer as
    it is at this moment. *)
Definition hand_over (m : Mode) (c : WSSClient.t T) : WSSClient.t T :=
  match m with
  | Sync => snd (HTTPSClient_Send (ws_send_buffer c) c)
  | SyncTimeout timeout =>
      snd (HTTPSClient_SendTimeout (ws_send_buffer c) timeout c)
  | Async => snd (HTTPSClient_SendAsync (ws_send_buffer c) c)
  end.

(** One atomic step of thread [i].  A thread that cannot move (it
    waits for the lock, has returned, or does not exist) leaves the
    system as it is.  Only the first step looks at the lock. *)
Definition step (i : nat) (s : System T) : System T :=
  match threads s !! i with
  | None => s
  | Some th =>
      match pc th with
      | Calling =>
          match ws_send_lock s with
          | Some _ => s
          | None =>
              mkSystem (client s) (Some i)
                (<[i := mkThread (request th) Locked (key th)]> (threads s))
          end
      | Locked =>
          let '(k, c) := draw_key (set_buffer [] (client s)) in
          mkSystem c (ws_send_lock s)
            (<[i := mkThread (request th) (Filling (frame_of (request th) k))
                      (Some k)]> (threads s))
      | Filling (b :: todo) =>
          mkSystem (set_buffer (ws_send_buffer (client s) ++ [b]) (client s))
            (ws_send_lock s)
            (<[i := mkThread (request th) (Filling todo) (key th)]> (threads s))
      | Filling [] =>
          mkSystem (hand_over (rq_mode (request th)) (client s))
            (ws_send_lock s)
            (<[i := mkThread (request th) Handed (key th)]> (threads s))
      | Handed =>
          mkSystem (client s) None
            (<[i := mkThread (request th) Returned (key th)]> (threads s))
      | Returned => s
      end
  end.

(** The system after the threads named in [schedule] have each taken
    a step, in that order. *)
Definition run (schedule : list nat) (s : System T) : System T :=
  fold_left (fun s i => step i s) schedule s.

(** All calls are about to start and the lock is free. *)
Definition init (c : WSSClient.t T) (reqs : list Request) : System T :=
  mkSystem c None (map (fun r => mkThread r Calling None) reqs).

End Steps.

(** A thread is inside the encode-and-send region from the moment it
    holds the lock until it gives it up. *)
Definition in_region (th : Thread) : bool :=
  match pc th with
  | Locked | Filling _ | Handed => true
  | Calling | Returned => false
  end.

(** The thread has handed its frame to the transport. *)
Definition has_sent (th : Thread) : bool :=
  match pc th with
  | Handed | Returned => true
  | _ => false
  end.

(** [call] is what the transport sees when thread [i] hands over its
    frame whole: the transport member of [i]'s request, applied to
    the complete frame of that request under some mask key. *)
Definition whole_frame_of (reqs : list Request) (i : nat) (call : Call) : Prop :=
  exists r k, reqs !! i = Some r /\ call = call_of (rq_mode r) (frame_of r k).

(** The same, with the key being the one thread [i] drew. *)
Definition sent_by (ths : list Thread) (i : nat) (call : Call) : Prop :=
  exists th k,
    ths !! i = Some th /\ has_sent th = true /\ key th = Some k
    /\ call = call_of (rq_mode (request th)) (frame_of (request th) k).

(** What holds of every state the system can reach from [init c0 reqs]:
    the threads keep their requests; the lock is held exactly by the
    one thread inside the region, if any; the send buffer and what is
    still to be appended make up the frame of the thread filling it;
    and the transport has seen, after the calls of [c0], one whole
    frame for each thread that has handed over, in hand-over order. *)
Definition invariant {T : Type} (c0 : WSSClient.t T) (reqs : list Request)
    (s : System T) : Prop :=
  map request (threads s) = reqs
  /\ (forall j th, threads s !! j = Some th ->
                   in_region th = true <-> ws_send_lock s = Some j)
  /\ (forall i th todo,
        threads s !! i = Some th -> pc th = Filling todo ->
        exists k, key th = Some k
                  /\ ws_send_buffer (client s) ++ todo = frame_of (request th) k)
  /\ exists order news,
       calls (client s) = calls c0 ++ news
       /\ NoDup order
       /\ (forall i, i ∈ order <->
                     exists th, threads s !! i = Some th /\ has_sent th = true)
       /\ Forall2 (sent_by (threads s)) order news.

End SendGate.

(** The Close frame Disconnect and DisconnectAsync build: status 1000,
    no reason, masked with the key next in line. *)
Definition close_1000 {T : Type} (c : WSSClient.t T) : list byte :=
  Encode Close [] (Some 1000)
    (WSSClient.ws_random c (WSSClient.ws_random_pos c)).

(** ** Sample data for the examples *)

Definition sample_key : MaskKey := mkKey "055" "250" "033" "061".

(** A fresh client on the stand-in transport, every mask key being
    [sample_key]; [up] says whether the transport is connected. *)
Definition sample_client (up : bool) : WSSClient.t Pipe :=
  WSSClient.mk (mkPipe up []) [] (fun _ => sample_key) 0 false [] [].

(** An engine around the sample client, in connection state [s], with
    nothing received so far and no message handler. *)
Definition sample_engine (s : Engine.ConnectionState) : Engine.t Pipe :=
  Engine.mk (sample_client true) s [] None [] false [].

(** An I/O context that delivers nothing. *)
Definition quiet : nat -> list Engine.IoEvent := fun _ => [].

(** A Close frame with status 1001, as a server sends it (unmasked). *)
Definition close_1001 : Frame := mkFrame Close true ["003"; "233"]%byte (Some 1001).

(** A frame with the undefined opcode 3. *)
Definition bad_opcode_bytes : list byte := ["131"; "001"; "a"]%byte.

(** The call [SendText(text)] as a request at the send gate. *)
Definition send_text (text : string) : SendGate.Request :=
  SendGate.mkRequest Text (WSSClient.sv_data text) (WSSClient.sv_size text) 0
    SendGate.Sync.

(** Two threads, one in [SendText("AAA")], one in [SendText("BBB")]. *)
Definition two_senders : list SendGate.Request := [send_text "AAA"; send_text "BBB"].

(** A schedule for them: thread 1 gets the lock first, thread 0 keeps
    trying while thread 1 fills the buffer, then both run to the end. *)
Definition contended : list nat :=
  [1; 0; 1; 0; 1; 1; 0; 1; 1; 1; 0; 1; 1; 1; 1; 1; 1; 0; 1; 1; 0; 0]%nat
  ++ repeat 0%nat 12.

(** One delivery from a server: a Pong, a Close frame with status 1001,
    and one stray byte after it. *)
Definition close_then_stray_byte : list byte :=
  ["138"; "000"; "136"; "002"; "003"; "233"; "129"]%byte.

(** ** The send methods as one family

    The thirty send methods of the header differ in three places only:
    the opcode (and status) passed to [PrepareSendFrame], the way the
    bytes are given, and the transport member called at the end. *)

Module Family.
Import WSSClient.

(** The opcode a method passes to [PrepareSendFrame]. *)
Definition operation_opcode (o : Operation) : Opcode :=
  match o with
  | OpText => WS_TEXT
  | OpBinary => WS_BINARY
  | OpClose _ => WS_CLOSE
  | OpPing => WS_PING
  | OpPong => WS_PONG
  end.

(** The status a method passes to [PrepareSendFrame]: its own argument
    for the close methods, the default for the others. *)
Definition operation_status (o : Operation) : Z :=
  match o with
  | OpClose status => status
  | _ => 0%Z
  end.

(** The call a variant ends with, as the transport sees it. *)
Definition variant_call (v : Variant) (bytes : list byte) : Call :=
  match v with
  | Plain => CallSend bytes
  | WithTimeout timeout => CallSendTimeout bytes timeout
  | Asynchronous => CallSendAsync bytes
  end.

(** One call of a send method through its (buffer, size) overload. *)
Record MethodCall := mkCall {
  mc_operation : Operation;
  mc_variant : Variant;
  mc_buffer : list byte;
  mc_size : nat
}.

(** The same call made through the string_view overload. *)
Definition view_call (o : Operation) (v : Variant) (text : string) : MethodCall :=
  mkCall o v (sv_data text) (sv_size text).

Section Calls.
Context {T : Type} `{HTTPSClient T}.

(** What the transport member of a variant returns for [bytes], and
    what the transport becomes. *)
Definition transport_result (v : Variant) (bytes : list byte) (tr : T) : Result * T :=
  match v with
  | Plain => let '(n, tr') := Send bytes tr in (Count n, tr')
  | WithTimeout timeout =>
      let '(n, tr') := SendTimeout bytes timeout tr in (Count n, tr')
  | Asynchronous => let '(ok, tr') := SendAsync bytes tr in (Verdict ok, tr')
  end.

Definition invoke (m : MethodCall) (c : WSSClient.t T) : Result * WSSClient.t T :=
  call_buffer (mc_operation m) (mc_variant m) (mc_buffer m) (mc_size m) c.

(** Calls made one after the other by one caller. *)
Definition send_all (ms : list MethodCall) (c : WSSClient.t T) : WSSClient.t T :=
  fold_left (fun c m => snd (invoke m c)) ms c.

(** The frame of the [i]-th call after [c], counting from 0: the mask
    key is the [i]-th one still to be drawn. *)
Definition nth_frame (c : WSSClient.t T) (i : nat) (m : MethodCall) : list byte :=
  Encode (operation_opcode (mc_operation m)) (take (mc_size m) (mc_buffer m))
    (Some (status_u16 (operation_status (mc_operation m))))
    (ws_random c (ws_random_pos c + i)).

End Calls.

End Family.

(** ** Concurrent calls against calls in sequence *)

Module Serial.
Import WSSClient SendGate Family.

Definition mode_of (v : Variant) : Mode :=
  match v with
  | Plain => Sync
  | WithTimeout timeout => SyncTimeout timeout
  | Asynchronous => Async
  end.

(** A method call as a request at the send gate. *)
Definition request_of (m : MethodCall) : Request :=
  mkRequest (operation_opcode (mc_operation m)) (mc_buffer m) (mc_size m)
    (operation_status (mc_operation m)) (mode_of (mc_variant m)).

(** The steps a thread still has to take: the lock, the start of
    [PrepareSendFrame], one step per byte of the frame, the hand-over,
    the unlock.  The length of a frame does not depend on the key. *)
Definition remaining (th : Thread) : nat :=
  match pc th with
  | Calling => 4 + length (frame_of (request th) (mkKey "000" "000" "000" "000"))
  | Locked => 3 + length (frame_of (request th) (mkKey "000" "000" "000" "000"))
  | Filling todo => 2 + length todo
  | Handed => 1
  | Returned => 0
  end.

Definition work_left {T : Type} (s : System T) : nat :=
  sum_list (map remaining (threads s)).

Definition all_returned {T : Type} (s : System T) : Prop :=
  forall i th, threads s !! i = Some th -> pc th = Returned.

(** The lock is only ever held by one of the threads. *)
Definition holder_exists {T : Type} (s : System T) : Prop :=
  forall o, ws_send_lock s = Some o -> (o < length (threads s))%nat.

Section Sequential.
Context {T : Type} `{HTTPSClient T}.

(** A request served in one go, as the method does it. *)
Definition perform (r : Request) (c : WSSClient.t T) : WSSClient.t T :=
  hand_over (rq_mode r)
    (PrepareSendFrame (rq_opcode r) (rq_buffer r) (rq_size r) (rq_status r) c).

(** The requests of the threads named in [order], served in that
    order. *)
Definition perform_in (reqs : list Request) (order : list nat)
    (c : WSSClient.t T) : WSSClient.t T :=
  fold_left (fun c i => match reqs !! i with Some r => perform r c | None => c end)
    order c.

(** The thread holding the lock, if any. *)
Definition holder (s : System T) : option Thread :=
  match ws_send_lock s with
  | Some o => threads s !! o
  | None => None
  end.

(** The client of a reachable state is the client the requests handed
    over so far leave when served in sequence, in hand-over order,
    except for what the thread now inside [PrepareSendFrame] has done
    to the send buffer and the random source. *)
Definition serial (c0 : WSSClient.t T) (reqs : list Request) (s : System T) : Prop :=
  exists order,
    NoDup order
    /\ (forall i, i ∈ order <->
                  exists th, threads s !! i = Some th /\ has_sent th = true)
    /\ match holder s with
       | Some (mkThread _ (Filling _) k) =>
           k = Some (ws_random (perform_in reqs order c0)
                       (ws_random_pos (perform_in reqs order c0)))
           /\ SendGate.client s
              = set_buffer (ws_send_buffer (SendGate.client s))
                  (snd (draw_key (set_buffer [] (perform_in reqs order c0))))
       | _ => SendGate.client s = perform_in reqs order c0
       end.

End Sequential.

End Serial.

(** * Properties *)

(** ** Bytes *)

Module U8Facts.
Import U8.

Lemma val_bound (b : byte) : val b < 256.
Proof.
  unfold val. pose proof (Byte.to_N_bounded b). lia.
Qed.

Lemma val_of_N (n : N) : val (of_N n) = n mod 256.
Proof.
  unfold val, of_N.
  destruct (Byte.of_N (n mod 256)) as [b|] eqn:E.
  - now apply Byte.to_of_N.
  - apply Byte.of_N_None_iff in E.
    pose proof (N.mod_upper_bound n 256). lia.
Qed.

Lemma val_of_N_small (n : N) : n < 256 -> val (of_N n) = n.
Proof.
  intros Hn. rewrite val_of_N. now apply N.mod_small.
Qed.

Lemma of_N_val (b : byte) : of_N (val b) = b.
Proof.
  unfold of_N, val.
  rewrite N.mod_small by (pose proof (Byte.to_N_bounded b); lia).
  now rewrite Byte.of_to_N.
Qed.

Lemma high_bits_clear (x : N) (m : N) : x < 256 -> 8 <= m -> N.testbit x m = false.
Proof.
  intros Hx Hm.
  rewrite <- (N.mod_small x (2 ^ 8)) by (change (2 ^ 8) with 256; lia).
  now apply N.mod_pow2_bits_high.
Qed.

Lemma lxor_bound (x y : N) : x < 256 -> y < 256 -> N.lxor x y < 256.
Proof.
  intros Hx Hy.
  assert (E : N.lxor x y mod 2 ^ 8 = N.lxor x y).
  { apply N.bits_inj. intros m.
    destruct (N.lt_ge_cases m 8) as [Hm|Hm].
    - now rewrite N.mod_pow2_bits_low.
    - rewrite N.mod_pow2_bits_high by assumption.
      rewrite N.lxor_spec, !high_bits_clear by assumption. reflexivity. }
  rewrite <- E. change (2 ^ 8) with 256. apply N.mod_upper_bound. lia.
Qed.

Lemma val_xor (a b : byte) : val (xor a b) = N.lxor (val a) (val b).
Proof.
  unfold xor. apply val_of_N_small, lxor_bound; apply val_bound.
Qed.

(** Masking is symmetric: XOR with the same byte twice is the
    identity. *)
Lemma xor_involutive (a k : byte) : xor (xor a k) k = a.
Proof.
  unfold xor at 1. rewrite val_xor.
  rewrite N.lxor_assoc, N.lxor_nilpotent, N.lxor_0_r.
  apply of_N_val.
Qed.

Lemma be_bytes_length (k : nat) (v : N) : length (be_bytes k v) = k.
Proof.
  induction k as [|k IH]; simpl; [reflexivity | now rewrite IH].
Qed.

Lemma be_value_app (l : list byte) (b : byte) :
  be_value (l ++ [b]) = be_value l * 256 + val b.
Proof.
  unfold be_value. now rewrite fold_left_app.
Qed.

Lemma fold_be_acc (l : list byte) (acc : N) :
  fold_left (fun a b => a * 256 + val b) l acc
  = acc * 256 ^ N.of_nat (length l) + be_value l.
Proof.
  unfold be_value. revert acc.
  induction l as [|b l IH]; intros acc.
  - simpl. lia.
  - cbn [fold_left length]. rewrite IH, (IH (0 * 256 + val b)).
    rewrite Nat2N.inj_succ, N.pow_succ_r'. lia.
Qed.

Lemma be_value_cons (b : byte) (l : list byte) :
  be_value (b :: l) = val b * 256 ^ N.of_nat (length l) + be_value l.
Proof.
  unfold be_value at 1. cbn [fold_left]. rewrite fold_be_acc. lia.
Qed.

(** Reading back a [k]-byte big-endian number gives the number modulo
    2^(8k). *)
Lemma be_value_be_bytes (k : nat) (v : N) :
  be_value (be_bytes k v) = v mod 2 ^ (8 * N.of_nat k).
Proof.
  induction k as [|k IH].
  - simpl. now rewrite N.mod_1_r.
  - cbn [be_bytes]. rewrite be_value_cons, be_bytes_length, IH, val_of_N.
    rewrite N.shiftr_div_pow2.
    replace (8 * N.of_nat (S k)) with (8 * N.of_nat k + 8) by lia.
    rewrite N.pow_add_r. change (2 ^ 8) with 256.
    replace (256 ^ N.of_nat k) with (2 ^ (8 * N.of_nat k))
      by (rewrite N.pow_mul_r; reflexivity).
    set (p := 2 ^ (8 * N.of_nat k)).
    assert (Hp : p <> 0) by (apply N.pow_nonzero; lia).
    rewrite (N.Div0.mod_mul_r v p 256). lia.
Qed.

Lemma be_value_be_bytes_small (k : nat) (v : N) :
  v < 2 ^ (8 * N.of_nat k) -> be_value (be_bytes k v) = v.
Proof.
  intros Hv. rewrite be_value_be_bytes. now apply N.mod_small.
Qed.

End U8Facts.

(** ** The frame codec *)

Module CodecFacts.
Import U8 U8Facts.

Lemma len7_of_flagged (l : N) : l < 128 -> N.land (128 + l) 127 = l.
Proof.
  intros Hl. change 127 with (N.ones 7). rewrite N.land_ones.
  change (2 ^ 7) with 128. symmetry. apply (N.mod_unique _ _ 1); lia.
Qed.

Lemma mask_bit_of_flagged (l : N) : l < 128 -> N.testbit (128 + l) 7 = true.
Proof.
  intros Hl. rewrite N.testbit_eqb. change (2 ^ 7) with 128.
  rewrite <- (N.div_unique (128 + l) 128 1 l) by lia. reflexivity.
Qed.

Lemma second_byte (l : N) :
  l < 128 ->
  N.testbit (val (of_N (128 + l))) 7 = true
  /\ N.land (val (of_N (128 + l))) 127 = l.
Proof.
  intros Hl. rewrite val_of_N_small by lia.
  split; [now apply mask_bit_of_flagged | now apply len7_of_flagged].
Qed.

Lemma first_byte (op : Opcode) :
  opcode_of_code (N.land (val (header_byte true op)) 15) = Some op
  /\ N.testbit (val (header_byte true op)) 7 = true.
Proof.
  destruct op; split; reflexivity.
Qed.

Lemma mask_from_length (k : MaskKey) (i : nat) (l : list byte) :
  length (mask_from k i l) = length l.
Proof.
  revert i. induction l as [|b l IH]; intros i; simpl; [reflexivity|].
  now rewrite IH.
Qed.

(** Masking twice with the same key gives the payload back. *)
Lemma mask_from_involutive (k : MaskKey) (i : nat) (l : list byte) :
  mask_from k i (mask_from k i l) = l.
Proof.
  revert i. induction l as [|b l IH]; intros i; [reflexivity|].
  cbn [mask_from]. now rewrite xor_involutive, IH.
Qed.

Lemma mask_payload_involutive (k : MaskKey) (l : list byte) :
  mask_payload k (mask_payload k l) = l.
Proof.
  apply mask_from_involutive.
Qed.

Lemma mask_payload_length (k : MaskKey) (l : list byte) :
  length (mask_payload k l) = length l.
Proof.
  apply mask_from_length.
Qed.

Lemma length_field_length (len : N) :
  length (length_field len)
  = if len <=? 125 then 1%nat else if len <=? 65535 then 3%nat else 9%nat.
Proof.
  unfold length_field.
  destruct (len <=? 125); [reflexivity|].
  destruct (len <=? 65535); cbn [length]; now rewrite be_bytes_length.
Qed.

(** Parsing a masked frame laid out as the wire format says: header
    byte, flagged length byte, extended length, key, masked payload. *)
Lemma parse_frame_masked (op : Opcode) (b1 : byte) (len7 : N)
    (extb : list byte) (key : MaskKey) (body rest : list byte) :
  N.testbit (val b1) 7 = true ->
  N.land (val b1) 127 = len7 ->
  length extb = ext_len_size len7 ->
  (if (ext_len_size len7 =? 0)%nat then len7 else be_value extb)
    = N.of_nat (length body) ->
  N.of_nat (length body) + 14 < size_max ->
  (op = Close -> length body <> 1%nat) ->
  parse_frame (header_byte true op :: b1 :: extb ++ key_bytes key
                 ++ mask_payload key body ++ rest)
  = PFrame (mkFrame op true body (close_status op body)) rest.
Proof.
  intros Hbit Hlen7 Hext Hlen Hfit Hclose.
  destruct key as [ka kb kc kd].
  unfold parse_frame.
  destruct (first_byte op) as [-> ->].
  rewrite Hbit, Hlen7.
  rewrite !length_app, Hext, mask_payload_length.
  rewrite (take_app_length' extb) by (symmetry; exact Hext).
  rewrite (drop_app_length' extb) by (symmetry; exact Hext).
  rewrite Hlen. clear Hlen.
  cbn [key_bytes k0 k1 k2 k3 length app take drop].
  rewrite Nat2N.id, !take_0, !drop_0. cbv iota.
  rewrite (take_app_length' (mask_payload _ body))
    by (symmetry; apply mask_payload_length).
  rewrite (drop_app_length' (mask_payload _ body))
    by (symmetry; apply mask_payload_length).
  rewrite mask_payload_involutive.
  replace (_ <? _)%nat with false by (symmetry; apply Nat.ltb_ge; lia).
  replace (size_max <=? _) with false
    by (symmetry; apply N.leb_gt; destruct (ext_len_size len7 =? 0)%nat eqn:E;
        unfold ext_len_size in *; repeat case_match; lia).
  rewrite length_app, mask_payload_length.
  replace (_ <? _) with false by (symmetry; apply N.ltb_ge; lia).
  replace (opcode_eqb op Close && (length body =? 1)%nat) with false.
  - reflexivity.
  - destruct (Nat.eqb_spec (length body) 1) as [E|E];
      [|now rewrite andb_false_r].
    destruct op; try reflexivity. now destruct Hclose.
Qed.

Lemma logical_payload_close_length (data : list byte) (status : option N) :
  length (logical_payload Close data status) <> 1%nat.
Proof.
  destruct status as [s|]; cbn [logical_payload]; [|discriminate].
  rewrite length_app, be_bytes_length. lia.
Qed.

(** The decoder reads an encoded frame back, whatever follows it. *)
Lemma parse_frame_Encode (op : Opcode) (data : list byte) (status : option N)
    (key : MaskKey) (rest : list byte) :
  N.of_nat (length (logical_payload op data status)) + 14 < size_max ->
  parse_frame (Encode op data status key ++ rest)
  = PFrame (mkFrame op true (logical_payload op data status)
              (close_status op (logical_payload op data status))) rest.
Proof.
  intros Hfit. unfold Encode.
  assert (Hclose : op = Close -> length (logical_payload op data status) <> 1%nat)
    by (intros ->; apply logical_payload_close_length).
  set (body := logical_payload op data status) in *.
  set (len := N.of_nat (length body)) in *.
  unfold length_field.
  destruct (N.leb_spec len 125) as [H125|H125];
    [|destruct (N.leb_spec len 65535) as [H16|H16]].
  - destruct (second_byte len) as [Hb Hl]; [lia|].
    assert (Hext : ext_len_size len = 0%nat).
    { unfold ext_len_size.
      destruct (N.eqb_spec len 126); [lia|]. destruct (N.eqb_spec len 127); [lia|].
      reflexivity. }
    apply (parse_frame_masked op _ len [] key body rest); try assumption.
    + now rewrite Hext.
    + now rewrite Hext.
  - cbn [app]. rewrite <- app_assoc.
    apply (parse_frame_masked op _ 126 (be_bytes 2 len) key body rest);
      try assumption; try reflexivity.
    change (be_value (be_bytes 2 len) = len).
    apply be_value_be_bytes_small. change (2 ^ (8 * N.of_nat 2)) with 65536. lia.
  - cbn [app]. rewrite <- app_assoc.
    apply (parse_frame_masked op _ 127 (be_bytes 8 len) key body rest);
      try assumption; try reflexivity.
    change (be_value (be_bytes 8 len) = len).
    apply be_value_be_bytes_small.
    change (2 ^ (8 * N.of_nat 8)) with size_max. lia.
Qed.

(** A parsed frame uses up at least the two header bytes. *)
Lemma parse_frame_consumes (bytes : list byte) (f : Frame) (rest : list byte) :
  parse_frame bytes = PFrame f rest -> (length rest + 2 <= length bytes)%nat.
Proof.
  unfold parse_frame.
  destruct bytes as [|b0 [|b1 tl]]; try discriminate.
  repeat case_match; try discriminate;
    intros [= _ <-]; rewrite !length_drop; cbn [length]; lia.
Qed.

(** Any fuel of at least the number of bytes gives the same result. *)
Lemma decode_loop_enough (fuel : nat) (bytes : list byte) :
  (length bytes <= fuel)%nat -> decode_loop fuel bytes = Decode bytes.
Proof.
  unfold Decode. revert bytes.
  induction fuel as [fuel IH] using lt_wf_ind. intros bytes Hfuel.
  destruct bytes as [|b bs]; [now destruct fuel|].
  destruct fuel as [|fuel]; [cbn [length] in Hfuel; lia|].
  cbn [length decode_loop].
  destruct (parse_frame (b :: bs)) as [why| |f rest] eqn:Hp; try reflexivity.
  apply parse_frame_consumes in Hp. cbn [length] in Hp, Hfuel.
  rewrite (IH fuel) by lia. rewrite (IH (length bs)) by lia. reflexivity.
Qed.

(** The equation [Decode] satisfies. *)
Lemma Decode_unfold (bytes : list byte) :
  Decode bytes =
  match bytes with
  | [] => Decoded [] []
  | _ :: _ =>
      match parse_frame bytes with
      | PFault why => ProtocolError why
      | PIncomplete => Decoded [] bytes
      | PFrame f rest =>
          match Decode rest with
          | ProtocolError why => ProtocolError why
          | Decoded fs leftover => Decoded (f :: fs) leftover
          end
      end
  end.
Proof.
  destruct bytes as [|b bs]; [reflexivity|].
  unfold Decode at 1. cbn [length decode_loop].
  destruct (parse_frame (b :: bs)) as [why| |f rest] eqn:Hp; try reflexivity.
  apply parse_frame_consumes in Hp. cbn [length] in Hp.
  now rewrite decode_loop_enough by lia.
Qed.

Lemma Encode_not_nil (op : Opcode) (data : list byte) (status : option N)
    (key : MaskKey) (rest : list byte) :
  Encode op data status key ++ rest <> [].
Proof.
  discriminate.
Qed.

(** Decoding bytes that start with an encoded frame yields that frame
    and then whatever the remaining bytes decode to. *)
Lemma Decode_Encode_app (op : Opcode) (data : list byte) (status : option N)
    (key : MaskKey) (rest : list byte) :
  N.of_nat (length (logical_payload op data status)) + 14 < size_max ->
  Decode (Encode op data status key ++ rest) =
  match Decode rest with
  | ProtocolError why => ProtocolError why
  | Decoded fs leftover =>
      Decoded (mkFrame op true (logical_payload op data status)
                 (close_status op (logical_payload op data status)) :: fs)
              leftover
  end.
Proof.
  intros Hfit. rewrite Decode_unfold, parse_frame_Encode by assumption.
  reflexivity.
Qed.

Lemma opcode_of_code_none (c : N) :
  existsb (N.eqb c) [0; 1; 2; 8; 9; 10] = false -> opcode_of_code c = None.
Proof.
  cbn [existsb]. intros Hc.
  repeat (apply orb_false_elim in Hc; destruct Hc as [?%N.eqb_neq Hc]).
  unfold opcode_of_code.
  destruct c as [|[[[[]|[]|]|[[]|[]|]|]|[[[]|[]|]|[[]|[]|]|]|]]; congruence.
Qed.

Lemma opcode_of_code_some (c : N) (op : Opcode) :
  opcode_of_code c = Some op -> existsb (N.eqb c) [0; 1; 2; 8; 9; 10] = true.
Proof.
  destruct (existsb _ _) eqn:E; [reflexivity|].
  apply opcode_of_code_none in E. congruence.
Qed.

(** A malformed head is a fault of the parser. *)
Lemma parse_frame_malformed (bytes : list byte) :
  malformed bytes = true ->
  exists why, parse_frame bytes = PFault why
              /\ (why = InvalidOpcode \/ why = TruncatedHeader \/ why = LengthOverflow).
Proof.
  destruct bytes as [|b0 [|b1 rest]].
  - discriminate.
  - intros _. exists TruncatedHeader. auto.
  - unfold malformed, invalid_opcode, truncated_header, length_overflows,
      header_size, announced_length, opcode_field, len7, len16, len64, mask_bit,
      parse_frame.
    cbn [lookup list_lookup length drop].
    destruct (opcode_of_code (N.land (val b0) 15)) as [op|] eqn:Hop;
      [|intros _; exists InvalidOpcode; auto].
    rewrite (opcode_of_code_some _ _ Hop). cbn [negb andb orb].
    rewrite !drop_0.
    set (l7 := N.land (val b1) 127).
    set (ks := if N.testbit (val b1) 7 then 4%nat else 0%nat).
    assert (Hlen : (if (ext_len_size l7 =? 0)%nat then l7
                    else be_value (take (ext_len_size l7) rest))
                   = (if l7 =? 126 then be_value (take 2 rest)
                      else if l7 =? 127 then be_value (take 8 rest) else l7)).
    { unfold ext_len_size. destruct (l7 =? 126); [reflexivity|].
      destruct (l7 =? 127); reflexivity. }
    rewrite Hlen. clear Hlen.
    destruct (Nat.ltb_spec (length rest) (ext_len_size l7 + ks)) as [Ht|Ht];
      [intros _; exists TruncatedHeader; auto|].
    replace (S (S (length rest)) <? 2 + ext_len_size l7 + ks)%nat with false
      by (symmetry; apply Nat.ltb_ge; lia).
    replace (2 + ext_len_size l7 + ks <=? S (S (length rest)))%nat with true
      by (symmetry; apply Nat.leb_le; lia).
    rewrite !andb_false_r. cbn [orb andb].
    intros Hov. exists LengthOverflow. split; [|auto].
    now rewrite Hov.
Qed.

Lemma Decode_malformed (bytes : list byte) :
  malformed bytes = true ->
  exists why, Decode bytes = ProtocolError why
              /\ (why = InvalidOpcode \/ why = TruncatedHeader \/ why = LengthOverflow).
Proof.
  intros Hbad. destruct (parse_frame_malformed bytes Hbad) as (why & Hp & Hw).
  exists why. split; [|assumption].
  rewrite Decode_unfold, Hp. destruct bytes; [discriminate|reflexivity].
Qed.

(** One encoded frame after the other decodes to the frames, in
    order. *)
Lemma Decode_frames (sent : list (Opcode * list byte * option N * MaskKey)) :
  Forall (fun '(op, data, status, _) =>
            N.of_nat (length (logical_payload op data status)) + 14 < size_max) sent ->
  Decode (concat (map (fun '(op, data, status, key) => Encode op data status key) sent))
  = Decoded
      (map (fun '(op, data, status, _) =>
              mkFrame op true (logical_payload op data status)
                (close_status op (logical_payload op data status))) sent) [].
Proof.
  induction 1 as [|[[[op data] status] key] sent Hfit _ IH]; [reflexivity|].
  cbn [map concat]. rewrite Decode_Encode_app by assumption. now rewrite IH.
Qed.

(** A malformed frame is a protocol error also when whole frames come
    before it in the same bytes. *)
Lemma Decode_malformed_after (sent : list (Opcode * list byte * option N * MaskKey))
    (bad : list byte) :
  Forall (fun '(op, data, status, _) =>
            N.of_nat (length (logical_payload op data status)) + 14 < size_max) sent ->
  malformed bad = true ->
  exists why,
    Decode (concat (map (fun '(op, data, status, key) => Encode op data status key) sent)
              ++ bad)
    = ProtocolError why.
Proof.
  intros Hfit Hbad. destruct (Decode_malformed bad Hbad) as (why & Hd & _).
  exists why. induction Hfit as [|[[[op data] status] key] sent Hfit _ IH];
    [exact Hd|].
  cbn [map concat]. rewrite <- app_assoc, Decode_Encode_app by assumption.
  now rewrite IH.
Qed.

(** What the parser produces keeps the data-model invariant of frames,
    and the status of a frame is the one its payload carries. *)
Lemma parse_frame_ok (bytes : list byte) (f : Frame) (rest : list byte) :
  parse_frame bytes = PFrame f rest ->
  frame_ok f = true /\ closeStatus f = close_status (opcode f) (payload f).
Proof.
  unfold parse_frame.
  destruct bytes as [|b0 [|b1 tl]]; try discriminate.
  destruct (opcode_of_code _) as [op|]; [|discriminate].
  destruct (_ <? _)%nat; [discriminate|].
  destruct (size_max <=? _); [discriminate|].
  destruct (_ <? _); [discriminate|].
  match goal with
  | |- context [mkFrame op _ ?b _] => generalize b
  end.
  intros body.
  destruct (opcode_eqb op Close && (length body =? 1)%nat) eqn:E; [discriminate|].
  intros [= <- _]. cbn [opcode payload closeStatus]. split; [|reflexivity].
  unfold frame_ok. cbn [opcode payload].
  destruct op; try reflexivity. cbn [opcode_eqb opcode_code N.eqb Pos.eqb andb] in E.
  destruct (length body) as [|[|n]]; [reflexivity|discriminate|reflexivity].
Qed.

Lemma decode_loop_ok (fuel : nat) (bytes : list byte) (fs : list Frame)
    (leftover : list byte) :
  decode_loop fuel bytes = Decoded fs leftover ->
  Forall (fun f => frame_ok f = true
                   /\ closeStatus f = close_status (opcode f) (payload f)) fs.
Proof.
  revert bytes fs leftover.
  induction fuel as [|fuel IH]; intros bytes fs leftover.
  - destruct bytes; intros [= <- _]; constructor.
  - destruct bytes as [|b bs]; [intros [= <- _]; constructor|].
    cbn [decode_loop].
    destruct (parse_frame (b :: bs)) as [why| |f rest] eqn:Hp;
      [discriminate|intros [= <- _]; constructor|].
    destruct (decode_loop fuel rest) as [why|fs' lo] eqn:Hd; [discriminate|].
    intros [= <- _]. constructor; [eapply parse_frame_ok; eassumption|].
    eapply IH; eassumption.
Qed.

Lemma Decode_ok (bytes : list byte) (fs : list Frame) (leftover : list byte) :
  Decode bytes = Decoded fs leftover ->
  Forall (fun f => frame_ok f = true
                   /\ closeStatus f = close_status (opcode f) (payload f)) fs.
Proof.
  apply decode_loop_ok.
Qed.

(** [Decode] is the outcome of the decoder's run. *)
Lemma stream_loop_outcome (fuel : nat) (bytes : list byte) :
  decode_loop fuel bytes
  = match stream_loop fuel bytes with
    | (fs, Rest leftover) => Decoded fs leftover
    | (_, Broken why) => ProtocolError why
    end.
Proof.
  revert bytes. induction fuel as [|fuel IH]; intros bytes.
  - destruct bytes; reflexivity.
  - destruct bytes as [|b bs]; [reflexivity|].
    cbn [decode_loop stream_loop].
    destruct (parse_frame (b :: bs)) as [why| |f rest]; try reflexivity.
    rewrite IH. destruct (stream_loop fuel rest) as [fs [leftover|why]]; reflexivity.
Qed.

Lemma Decode_outcome (bytes : list byte) :
  Decode bytes
  = match decode_stream bytes with
    | (fs, Rest leftover) => Decoded fs leftover
    | (_, Broken why) => ProtocolError why
    end.
Proof.
  apply stream_loop_outcome.
Qed.

Lemma stream_loop_ok (fuel : nat) (bytes : list byte) (fs : list Frame)
    (ending : StreamEnd) :
  stream_loop fuel bytes = (fs, ending) ->
  Forall (fun f => frame_ok f = true
                   /\ closeStatus f = close_status (opcode f) (payload f)) fs.
Proof.
  revert bytes fs ending.
  induction fuel as [|fuel IH]; intros bytes fs ending.
  - destruct bytes; intros [= <- _]; constructor.
  - destruct bytes as [|b bs]; [intros [= <- _]; constructor|].
    cbn [stream_loop].
    destruct (parse_frame (b :: bs)) as [why| |f rest] eqn:Hp;
      [intros [= <- _]; constructor|intros [= <- _]; constructor|].
    destruct (stream_loop fuel rest) as [fs' ending'] eqn:Hd.
    intros [= <- _]. constructor; [eapply parse_frame_ok; eassumption|].
    eapply IH; eassumption.
Qed.

(** A malformed head stops the decoder at once. *)
Lemma decode_stream_malformed (bytes : list byte) :
  malformed bytes = true ->
  exists why, decode_stream bytes = ([], Broken why).
Proof.
  intros Hbad. destruct (parse_frame_malformed bytes Hbad) as (why & Hp & _).
  exists why. unfold decode_stream.
  destruct bytes as [|b bs]; [discriminate|].
  cbn [length stream_loop]. now rewrite Hp.
Qed.

End CodecFacts.

(** ** The receive path *)

Module EngineFacts.
Import U8 U8Facts CodecFacts WSSClient Engine.

Section Facts.
Context {T : Type} `{HTTPSClient T}.

(** What the fault path does to the engine. *)
Lemma protocol_fault_effect (why : Fault) (e : Engine.t T) :
  let e' := protocol_fault why e in
  state e' = Closed
  /\ calls (client e') = calls (client e) ++ [CallDisconnectAsync]
  /\ errors (client e')
     = errors (client e)
         ++ [mkError asio_error_fault "WebSocket error" (fault_message why)]
  /\ queue e' = queue e
  /\ handled e' = handled e
  /\ received e' = []
  /\ pending e' = None.
Proof.
  unfold protocol_fault, HTTPSClient_DisconnectAsync, onWSError, onError.
  cbn [transport].
  destruct (HTTPS.DisconnectAsync (transport (client e))) as [ok tr].
  repeat split.
Qed.

Lemma be_value_bound (l : list byte) : be_value l < 256 ^ N.of_nat (length l).
Proof.
  induction l as [|b l IH] using rev_ind.
  - cbn. lia.
  - rewrite be_value_app, length_app. cbn [length].
    replace (N.of_nat (length l + 1)) with (N.succ (N.of_nat (length l))) by lia.
    rewrite N.pow_succ_r'. pose proof (val_bound b). lia.
Qed.

Lemma close_status_bound (op : Opcode) (body : list byte) (s : N) :
  close_status op body = Some s -> s < 65536.
Proof.
  unfold close_status. destruct op; try discriminate.
  destruct (2 <=? length body)%nat eqn:E; [|discriminate].
  intros [= <-]. apply Nat.leb_le in E.
  pose proof (be_value_bound (take 2 body)) as Hb.
  rewrite length_take_le in Hb by assumption. exact Hb.
Qed.

Lemma status_u16_small (s : N) : s < 65536 -> status_u16 (Z.of_N s) = s.
Proof.
  intros Hs. unfold status_u16. rewrite Z.mod_small by lia. apply N2Z.id.
Qed.

(** A wait that finds the queue empty throughout ends empty-handed,
    no later than its timeout, and leaves the engine as the I/O
    context made it. *)
Lemma wait_message_empty (n : nat) (io : IoSchedule) (now : nat) (e : Engine.t T) :
  (forall k, (k <= n)%nat -> queue (advance io now k e) = []) ->
  exists k,
    (k <= n)%nat
    /\ (wait_message n io now e = (TimedOut, (now + k)%nat, advance io now k e)
        /\ k = n
        \/ wait_message n io now e
           = (ConnectionClosed, (now + k)%nat, advance io now k e)
           /\ state (advance io now k e) = Closed).
Proof.
  revert now e. induction n as [|n IH]; intros now e Hq.
  - exists 0%nat. split; [lia|].
    pose proof (Hq 0%nat (Nat.le_refl _)) as Hq0. cbn [advance] in Hq0.
    cbn [wait_message advance]. rewrite Hq0, Nat.add_0_r.
    destruct (state e); cbn [is_closed]; auto.
  - pose proof (Hq 0%nat (Nat.le_0_l _)) as Hq0. cbn [advance] in Hq0.
    cbn [wait_message]. rewrite Hq0.
    destruct (is_closed (state e)) eqn:Hc.
    + exists 0%nat. split; [lia|]. right. cbn [advance]. rewrite Nat.add_0_r.
      split; [reflexivity|]. now destruct (state e).
    + destruct (IH (S now) (io_events (io now) e)) as (k & Hk & Hw).
      { intros k Hk. apply (Hq (S k)). lia. }
      exists (S k). split; [lia|]. cbn [advance].
      replace (now + S k)%nat with (S now + k)%nat by lia.
      destruct Hw as [[-> ->]|[-> Hcl]]; auto.
Qed.

(** A receive on a Closed engine with an empty queue returns at
    once. *)
Lemma wait_message_closed (n : nat) (io : IoSchedule) (now : nat) (e : Engine.t T) :
  state e = Closed -> queue e = [] ->
  wait_message n io now e = (ConnectionClosed, now, e).
Proof.
  intros Hs Hq. destruct n; cbn [wait_message]; now rewrite Hq, Hs.
Qed.

(** What handling a Close frame does on an open connection. *)
Lemma close_frame_handled (f : Frame) (e : Engine.t T) :
  state e = Open ->
  opcode f = Close ->
  closeStatus f = close_status Close (payload f) ->
  let status := default 1000 (closeStatus f) in
  let echo :=
    Encode Close [] (Some status)
      (ws_random (client e) (ws_random_pos (client e))) in
  calls (client (handle_frame f e))
    = calls (client e) ++ [CallSendAsync echo; CallDisconnectAsync]
  /\ Decode echo = Decoded [mkFrame Close true (be_bytes 2 status) (Some status)] []
  /\ state (handle_frame f e) = ClosingRemote.
Proof.
  intros Hopen Hop Hst status echo.
  assert (Hs : status < 65536).
  { subst status. destruct (closeStatus f) as [s|] eqn:E; cbn [default]; [|lia].
    symmetry in Hst. now apply close_status_bound in Hst. }
  assert (He' : handle_frame f e = on_close_frame f e).
  { unfold handle_frame. now rewrite Hopen, Hop. }
  rewrite He'. unfold on_close_frame. rewrite Hopen.
  unfold SendCloseAsync, HTTPSClient_SendAsync, HTTPSClient_DisconnectAsync,
    PrepareSendFrame.
  cbn [ws_send_buffer transport calls with_transport nullptr take].
  fold status. rewrite (status_u16_small status Hs).
  change (Encode WS_CLOSE [] (Some status) _) with echo.
  destruct (SendAsync echo (transport (client e))) as [ok tr1].
  cbn [transport calls with_transport].
  destruct (HTTPS.DisconnectAsync tr1) as [ok' tr2].
  cbn [client state calls with_transport].
  split; [now rewrite <- app_assoc|split; [|reflexivity]].
  subst echo. rewrite <- (app_nil_r (Encode _ _ _ _)).
  rewrite Decode_Encode_app by (vm_compute; reflexivity).
  cbn [Decode decode_loop length logical_payload close_status app].
  rewrite app_nil_r. cbn [be_bytes length Nat.leb take].
  change [of_N (N.shiftr status (8 * N.of_nat 1)); of_N (N.shiftr status (8 * N.of_nat 0))]
    with (be_bytes 2 status).
  rewrite be_value_be_bytes_small
    by (change (2 ^ (8 * N.of_nat 2)) with 65536; exact Hs).
  reflexivity.
Qed.

Lemma protocol_fault_state (why : Fault) (e : Engine.t T) :
  state (protocol_fault why e) = Closed
  /\ calls (client (protocol_fault why e)) = calls (client e) ++ [CallDisconnectAsync].
Proof.
  destruct (protocol_fault_effect why e) as (? & ? & _). auto.
Qed.

(** A frame handled on a connection that is not open sends nothing, and
    leaves the state as it is or Closed. *)
Lemma handle_frame_not_open (f : Frame) (e : Engine.t T) :
  state e <> Open ->
  exists later,
    calls (client (handle_frame f e)) = calls (client e) ++ later
    /\ only_disconnects later
    /\ (state (handle_frame f e) = state e \/ state (handle_frame f e) = Closed).
Proof.
  intros Hno.
  assert (Hfault : forall why,
    exists later,
      calls (client (protocol_fault why e)) = calls (client e) ++ later
      /\ only_disconnects later
      /\ (state (protocol_fault why e) = state e
          \/ state (protocol_fault why e) = Closed)).
  { intros why. destruct (protocol_fault_state why e) as [Hs Hc].
    exists [CallDisconnectAsync]. split; [exact Hc|].
    split; [repeat constructor|now right]. }
  assert (Hsame : forall e', client e' = client e -> state e' = state e ->
    exists later,
      calls (client e') = calls (client e) ++ later
      /\ only_disconnects later /\ (state e' = state e \/ state e' = Closed)).
  { intros e' Hc Hs. exists []. rewrite app_nil_r, Hc.
    split; [reflexivity|]. split; [constructor|now left]. }
  unfold handle_frame.
  destruct (is_closed (state e)); [now apply Hsame|].
  destruct (opcode f).
  - destruct (pending e); [|apply Hfault].
    destruct (fin f); apply Hsame; unfold deliver, set_pending;
      try destruct (handler e); reflexivity.
  - destruct (pending e); [apply Hfault|].
    destruct (fin f); apply Hsame; unfold deliver, set_pending;
      try destruct (handler e); reflexivity.
  - destruct (pending e); [apply Hfault|].
    destruct (fin f); apply Hsame; unfold deliver, set_pending;
      try destruct (handler e); reflexivity.
  - unfold on_close_frame.
    destruct (state e) eqn:Hst; try (apply Hsame; [reflexivity|exact Hst]).
    now destruct Hno.
  - now apply Hsame.
  - now apply Hsame.
Qed.

Lemma handle_frames_not_open (fs : list Frame) (e : Engine.t T) :
  state e <> Open ->
  exists later,
    calls (client (handle_frames fs e)) = calls (client e) ++ later
    /\ only_disconnects later
    /\ (state (handle_frames fs e) = state e \/ state (handle_frames fs e) = Closed).
Proof.
  revert e. induction fs as [|f fs IH]; intros e Hno.
  - exists []. rewrite app_nil_r. split; [reflexivity|].
    split; [constructor|now left].
  - destruct (handle_frame_not_open f e Hno) as (l1 & Hc1 & Hd1 & Hs1).
    destruct (IH (handle_frame f e)) as (l2 & Hc2 & Hd2 & Hs2).
    { destruct Hs1 as [-> | ->]; [assumption|discriminate]. }
    exists (l1 ++ l2). change (handle_frames (f :: fs) e)
      with (handle_frames fs (handle_frame f e)).
    rewrite Hc2, Hc1, <- app_assoc. split; [reflexivity|].
    split; [now apply Forall_app|].
    destruct Hs2 as [-> | ->]; [exact Hs1|now right].
Qed.

(** A frame after which the connection is open found it open and made
    no call. *)
Lemma handle_frame_still_open (f : Frame) (e : Engine.t T) :
  state (handle_frame f e) = Open ->
  state e = Open /\ client (handle_frame f e) = client e.
Proof.
  intros Hafter.
  assert (Hcase : state e = Open \/ state e <> Open)
    by (destruct (state e); auto; right; discriminate).
  destruct Hcase as [Hopen|Hno].
  - split; [assumption|]. revert Hafter.
    unfold handle_frame. rewrite Hopen. cbn [is_closed].
    destruct (opcode f); try reflexivity.
    + destruct (pending e);
        [|destruct (protocol_fault_state InconsistentFragmentation e); congruence].
      destruct (fin f); unfold deliver, set_pending; try destruct (handler e);
        reflexivity.
    + destruct (pending e);
        [destruct (protocol_fault_state InconsistentFragmentation e); congruence|].
      destruct (fin f); unfold deliver, set_pending; try destruct (handler e);
        reflexivity.
    + destruct (pending e);
        [destruct (protocol_fault_state InconsistentFragmentation e); congruence|].
      destruct (fin f); unfold deliver, set_pending; try destruct (handler e);
        reflexivity.
    + unfold on_close_frame. rewrite Hopen.
      destruct (SendCloseAsync _ _ _ _) as [ok c1].
      destruct (HTTPSClient_DisconnectAsync c1) as [ok' c2]. discriminate.
  - exfalso. destruct (handle_frame_not_open f e Hno) as (_ & _ & _ & [Hs|Hs]);
      congruence.
Qed.

Lemma handle_frames_still_open (fs : list Frame) (e : Engine.t T) :
  state (handle_frames fs e) = Open ->
  state e = Open /\ client (handle_frames fs e) = client e.
Proof.
  revert e. induction fs as [|f fs IH]; intros e Hafter; [auto|].
  change (handle_frames (f :: fs) e) with (handle_frames fs (handle_frame f e)) in *.
  destruct (IH _ Hafter) as [Hs Hc].
  destruct (handle_frame_still_open f e Hs) as [Hs' Hc'].
  split; [assumption|congruence].
Qed.

(** The bytes kept for an incomplete frame play no part in handling a
    frame. *)
Lemma handle_frame_alike (f : Frame) (e1 e2 : Engine.t T) :
  alike e1 e2 -> alike (handle_frame f e1) (handle_frame f e2).
Proof.
  destruct e1 as [c1 s1 r1 p1 q1 h1 d1], e2 as [c2 s2 r2 p2 q2 h2 d2].
  unfold alike. cbn [client state pending queue handler handled].
  intros (-> & -> & -> & -> & -> & ->).
  unfold handle_frame, on_close_frame, protocol_fault, deliver, set_pending.
  cbn [client state pending queue handler handled received].
  repeat case_match; cbn [client state pending queue handler handled];
    repeat split; congruence.
Qed.

Lemma handle_frames_alike (fs : list Frame) (e1 e2 : Engine.t T) :
  alike e1 e2 -> alike (handle_frames fs e1) (handle_frames fs e2).
Proof.
  revert e1 e2. induction fs as [|f fs IH]; intros e1 e2 Ha; [exact Ha|].
  apply (IH (handle_frame f e1) (handle_frame f e2)), handle_frame_alike, Ha.
Qed.

End Facts.

End EngineFacts.

(** ** The send gate *)

Module GateFacts.
Import WSSClient SendGate.

Section Facts.
Context {T : Type} `{HTTPSClient T}.

Lemma hand_over_calls (m : Mode) (c : WSSClient.t T) :
  calls (hand_over m c) = calls c ++ [call_of m (ws_send_buffer c)]
  /\ ws_send_buffer (hand_over m c) = ws_send_buffer c.
Proof.
  unfold hand_over, HTTPSClient_Send, HTTPSClient_SendTimeout, HTTPSClient_SendAsync.
  destruct m as [|timeout|]; cbn [call_of].
  - destruct (Send _ _); split; reflexivity.
  - destruct (SendTimeout _ _ _); split; reflexivity.
  - destruct (SendAsync _ _); split; reflexivity.
Qed.

(** Looking a thread up after thread [t] was replaced. *)
Lemma lookup_replaced (ths : list Thread) (t : nat) (old new : Thread)
    (j : nat) (th : Thread) :
  ths !! t = Some old ->
  <[t := new]> ths !! j = Some th <->
  (j = t /\ th = new) \/ (j <> t /\ ths !! j = Some th).
Proof.
  intros Hold. destruct (decide (j = t)) as [->|Hne].
  - rewrite list_lookup_insert_eq by (eapply lookup_lt_Some; eassumption).
    split; [intros [= <-]; auto|intros [[_ ->]|[? _]]; congruence].
  - rewrite list_lookup_insert_ne by congruence.
    split; [auto|intros [[? _]|[_ ?]]; congruence].
Qed.

Lemma requests_kept (ths : list Thread) (t : nat) (old new : Thread) :
  ths !! t = Some old -> request new = request old ->
  map request (<[t := new]> ths) = map request ths.
Proof.
  intros Hold Hreq.
  change (request <$> <[t := new]> ths = request <$> ths).
  rewrite list_fmap_insert. apply list_insert_id.
  rewrite list_lookup_fmap, Hold. cbn. now rewrite Hreq.
Qed.

(** The record of hand-overs is untouched by a step that neither
    hands over nor disturbs a thread that has. *)
Lemma sent_part_kept (ths : list Thread) (t : nat) (old new : Thread)
    (order : list nat) (news : list Call) :
  ths !! t = Some old ->
  request new = request old ->
  has_sent new = has_sent old ->
  (has_sent old = true -> key new = key old) ->
  (forall i, i ∈ order <-> exists th, ths !! i = Some th /\ has_sent th = true) ->
  Forall2 (sent_by ths) order news ->
  (forall i, i ∈ order <->
             exists th, <[t := new]> ths !! i = Some th /\ has_sent th = true)
  /\ Forall2 (sent_by (<[t := new]> ths)) order news.
Proof.
  intros Hold Hreq Hsent Hkey Hord Hall. split.
  - intros i. rewrite Hord. split.
    + intros (th & Hth & Hs). destruct (decide (i = t)) as [->|Hne].
      * exists new. rewrite (lookup_replaced _ _ _ _ _ _ Hold).
        split; [auto|]. rewrite Hsent. congruence.
      * exists th. rewrite (lookup_replaced _ _ _ _ _ _ Hold). auto.
    + intros (th & Hth & Hs).
      apply (lookup_replaced _ _ _ _ _ _ Hold) in Hth as [[-> ->]|[Hne Hth]].
      * exists old. split; [assumption|congruence].
      * exists th. auto.
  - eapply Forall2_impl; [exact Hall|].
    intros i call (th & k & Hth & Hs & Hk & Hcall).
    destruct (decide (i = t)) as [->|Hne].
    + assert (th = old) by congruence. subst th.
      exists new, k. rewrite (lookup_replaced _ _ _ _ _ _ Hold).
      repeat split; [auto|congruence|rewrite Hkey; assumption|].
      now rewrite Hreq.
    + exists th, k. rewrite (lookup_replaced _ _ _ _ _ _ Hold). auto.
Qed.

(** Every step keeps the invariant. *)
Lemma step_invariant (c0 : WSSClient.t T) (reqs : list Request) (t : nat)
    (s : System T) :
  invariant c0 reqs s -> invariant c0 reqs (step t s).
Proof.
  intros Hinv.
  pose proof Hinv as (Hreq & Hlock & Hfill & order & news & Hcalls & Hnd & Hord & Hall).
  unfold step.
  destruct (threads s !! t) as [[r p ky]|] eqn:Ht; [|exact Hinv].
  cbn [pc request key].
  pose proof (Hlock t _ Ht) as Hlt. cbn [in_region pc] in Hlt.
  destruct p as [| |[|b todo]| |].
  - (* Calling: take the lock if it is free *)
    destruct (ws_send_lock s) as [o|] eqn:Hl; [exact Hinv|].
    assert (Hnone : forall j th, threads s !! j = Some th -> in_region th = false).
    { intros j th Hj. destruct (in_region th) eqn:E; [|reflexivity].
      apply (Hlock j th Hj) in E. discriminate. }
    split; [|split; [|split]]; cbn [threads ws_send_lock client].
    + rewrite (requests_kept _ _ _ _ Ht) by reflexivity. exact Hreq.
    + intros j th Hj.
      apply (lookup_replaced _ _ _ _ _ _ Ht) in Hj as [[-> ->]|[Hne Hj]].
      * cbn. split; reflexivity.
      * rewrite (Hnone j th Hj). split; [discriminate|congruence].
    + intros i th todo Hi Hp.
      apply (lookup_replaced _ _ _ _ _ _ Ht) in Hi as [[-> ->]|[Hne Hi]];
        [discriminate|]. eauto.
    + exists order, news. split; [assumption|split; [assumption|]].
      apply (sent_part_kept _ _ _ _ _ _ Ht); auto.
  - (* Locked: PrepareSendFrame clears the buffer and draws the key *)
    assert (Hme : ws_send_lock s = Some t) by (now apply Hlt).
    cbn [draw_key set_buffer ws_random ws_random_pos].
    split; [|split; [|split]]; cbn [threads ws_send_lock client].
    + rewrite (requests_kept _ _ _ _ Ht) by reflexivity. exact Hreq.
    + intros j th Hj.
      apply (lookup_replaced _ _ _ _ _ _ Ht) in Hj as [[-> ->]|[Hne Hj]].
      * cbn. split; auto.
      * apply Hlock, Hj.
    + intros i th todo Hi Hp.
      apply (lookup_replaced _ _ _ _ _ _ Ht) in Hi as [[-> ->]|[Hne Hi]].
      * cbn in Hp. injection Hp as <-. eexists. split; reflexivity.
      * exfalso. apply Hne.
        assert (Hin : in_region th = true) by (unfold in_region; now rewrite Hp).
        apply (Hlock i th Hi) in Hin. congruence.
    + exists order, news. split; [assumption|split; [assumption|]].
      apply (sent_part_kept _ _ _ _ _ _ Ht); auto; discriminate.
  - (* Filling, nothing left: hand the buffer to the transport *)
    assert (Hme : ws_send_lock s = Some t) by (now apply Hlt).
    destruct (Hfill t _ [] Ht eq_refl) as (k & Hk & Hbuf).
    cbn [key request] in Hk, Hbuf. rewrite app_nil_r in Hbuf. subst ky.
    destruct (hand_over_calls (rq_mode r) (client s)) as [Hc Hb].
    split; [|split; [|split]]; cbn [threads ws_send_lock client].
    + rewrite (requests_kept _ _ _ _ Ht) by reflexivity. exact Hreq.
    + intros j th Hj.
      apply (lookup_replaced _ _ _ _ _ _ Ht) in Hj as [[-> ->]|[Hne Hj]].
      * cbn. split; auto.
      * apply Hlock, Hj.
    + intros i th todo Hi Hp.
      apply (lookup_replaced _ _ _ _ _ _ Ht) in Hi as [[-> ->]|[Hne Hi]];
        [discriminate|].
      exfalso. apply Hne.
      assert (Hin : in_region th = true) by (unfold in_region; now rewrite Hp).
      apply (Hlock i th Hi) in Hin. congruence.
    + exists (order ++ [t]), (news ++ [call_of (rq_mode r) (frame_of r k)]).
      assert (Hnew : t ∉ order).
      { rewrite Hord. intros (th & Hth & Hs). rewrite Ht in Hth.
        injection Hth as <-. discriminate. }
      assert (Hdiff : forall i th,
                 threads s !! i = Some th -> has_sent th = true -> i <> t).
      { intros i th Hth Hs ->. rewrite Ht in Hth. injection Hth as <-.
        discriminate. }
      split; [|split; [|split]].
      * rewrite Hc, Hcalls, Hbuf. now rewrite <- app_assoc.
      * apply NoDup_app. split; [assumption|]. split; [|apply NoDup_singleton].
        intros x Hx ->%list_elem_of_singleton. contradiction.
      * intros i. rewrite elem_of_app, list_elem_of_singleton, Hord. split.
        -- intros [(th & Hth & Hs)| ->].
           ++ exists th. rewrite (lookup_replaced _ _ _ _ _ _ Ht).
              split; [|assumption]. right. split; [eauto|assumption].
           ++ eexists. rewrite (lookup_replaced _ _ _ _ _ _ Ht).
              split; [left; split; reflexivity|reflexivity].
        -- intros (th & Hth & Hs).
           apply (lookup_replaced _ _ _ _ _ _ Ht) in Hth as [[-> ->]|[Hne Hth]];
             [right; reflexivity|left; eauto].
      * apply Forall2_app.
        -- eapply Forall2_impl; [exact Hall|].
           intros i call (th & k' & Hth & Hs & Hk' & Hcall).
           exists th, k'. rewrite (lookup_replaced _ _ _ _ _ _ Ht).
           repeat split; try assumption. right. split; [eauto|assumption].
        -- constructor; [|constructor].
           eexists _, k. rewrite (lookup_replaced _ _ _ _ _ _ Ht).
           split; [left; split; reflexivity|]. repeat split.
  - (* Filling: append the next byte of the frame *)
    assert (Hme : ws_send_lock s = Some t) by (now apply Hlt).
    destruct (Hfill t _ _ Ht eq_refl) as (k & Hk & Hbuf).
    cbn [key request] in Hk, Hbuf.
    split; [|split; [|split]]; cbn [threads ws_send_lock client].
    + rewrite (requests_kept _ _ _ _ Ht) by reflexivity. exact Hreq.
    + intros j th Hj.
      apply (lookup_replaced _ _ _ _ _ _ Ht) in Hj as [[-> ->]|[Hne Hj]].
      * cbn. split; auto.
      * apply Hlock, Hj.
    + intros i th todo' Hi Hp.
      apply (lookup_replaced _ _ _ _ _ _ Ht) in Hi as [[-> ->]|[Hne Hi]].
      * cbn in Hp. injection Hp as <-. exists k. split; [assumption|].
        cbn [set_buffer ws_send_buffer request]. now rewrite <- app_assoc.
      * exfalso. apply Hne.
        assert (Hin : in_region th = true) by (unfold in_region; now rewrite Hp).
        apply (Hlock i th Hi) in Hin. congruence.
    + exists order, news. split; [assumption|split; [assumption|]].
      apply (sent_part_kept _ _ _ _ _ _ Ht); auto.
  - (* Handed: the scoped_lock is destroyed *)
    assert (Hme : ws_send_lock s = Some t) by (now apply Hlt).
    split; [|split; [|split]]; cbn [threads ws_send_lock client].
    + rewrite (requests_kept _ _ _ _ Ht) by reflexivity. exact Hreq.
    + intros j th Hj.
      apply (lookup_replaced _ _ _ _ _ _ Ht) in Hj as [[-> ->]|[Hne Hj]].
      * cbn. split; discriminate.
      * rewrite (Hlock j th Hj), Hme. split; [congruence|discriminate].
    + intros i th todo Hi Hp.
      apply (lookup_replaced _ _ _ _ _ _ Ht) in Hi as [[-> ->]|[Hne Hi]];
        [discriminate|]. eauto.
    + exists order, news. split; [assumption|split; [assumption|]].
      apply (sent_part_kept _ _ _ _ _ _ Ht); auto.
  - (* Returned: nothing left to do *)
    exact Hinv.
Qed.

Lemma init_invariant (c : WSSClient.t T) (reqs : list Request) :
  invariant c reqs (init c reqs).
Proof.
  assert (Hth : forall j th,
             threads (init c reqs) !! j = Some th -> pc th = Calling).
  { intros j th. cbn [init threads].
    change (((fun r => mkThread r Calling None) <$> reqs) !! j = Some th -> pc th = Calling).
    rewrite list_lookup_fmap. destruct (reqs !! j); cbn; [|discriminate].
    now intros [= <-]. }
  split; [|split; [|split]].
  - cbn [init threads]. rewrite map_map. cbn. apply map_id.
  - intros j th Hj. unfold in_region. rewrite (Hth j th Hj).
    cbn. split; discriminate.
  - intros i th todo Hi Hp. rewrite (Hth i th Hi) in Hp. discriminate.
  - exists [], []. split; [now rewrite app_nil_r|].
    split; [constructor|]. split; [|constructor].
    intros i. split; [intros Hi; inversion Hi|].
    intros (th & Hi & Hs). unfold has_sent in Hs.
    rewrite (Hth i th Hi) in Hs. discriminate.
Qed.

(** The invariant holds in every state the system reaches. *)
Lemma run_invariant (c : WSSClient.t T) (reqs : list Request)
    (schedule : list nat) :
  invariant c reqs (run schedule (init c reqs)).
Proof.
  unfold run. generalize (init_invariant c reqs).
  generalize (init c reqs) as s.
  induction schedule as [|t schedule IH]; intros s Hs; [exact Hs|].
  cbn [fold_left]. apply IH, step_invariant, Hs.
Qed.

(** Filling the buffer, step by step, with nobody else moving. *)
Lemma fill_alone (r : Request) (k : option MaskKey) (todo : list byte)
    (c : WSSClient.t T) (lock : option nat) :
  run (repeat 0%nat (length todo)) (mkSystem c lock [mkThread r (Filling todo) k])
  = mkSystem (set_buffer (ws_send_buffer c ++ todo) c) lock
      [mkThread r (Filling []) k].
Proof.
  revert c. induction todo as [|b todo IH]; intros c.
  - cbn [length repeat run fold_left]. rewrite app_nil_r. now destruct c.
  - cbn [length repeat run fold_left]. unfold step at 2.
    cbn [threads lookup list_lookup pc request key client ws_send_lock insert
         list_insert].
    fold (run (repeat 0%nat (length todo))
            (mkSystem (set_buffer (ws_send_buffer c ++ [b]) c) lock
               [mkThread r (Filling todo) k])).
    rewrite IH. cbn [set_buffer ws_send_buffer transport ws_random ws_random_pos
                     sync_connect calls errors].
    now rewrite <- app_assoc.
Qed.

(** A call that runs alone does what the method does in one go: the
    client ends as [PrepareSendFrame] followed by the transport member
    leaves it, and the lock is free again. *)
Lemma run_app (l1 l2 : list nat) (s : System T) :
  run (l1 ++ l2) s = run l2 (run l1 s).
Proof.
  apply fold_left_app.
Qed.

Lemma run_alone (r : Request) (c : WSSClient.t T) :
  let k := ws_random c (ws_random_pos c) in
  run (repeat 0%nat (length (frame_of r k) + 4)) (init c [r])
  = mkSystem
      (hand_over (rq_mode r)
         (PrepareSendFrame (rq_opcode r) (rq_buffer r) (rq_size r) (rq_status r) c))
      None [mkThread r Returned (Some k)].
Proof.
  intros k.
  replace (repeat 0%nat (length (frame_of r k) + 4))
    with ([0; 0]%nat ++ repeat 0%nat (length (frame_of r k)) ++ [0; 0]%nat).
  2:{ change [0; 0]%nat with (repeat 0%nat 2).
      rewrite <- !repeat_app. f_equal. lia. }
  rewrite !run_app.
  assert (E1 : run [0; 0]%nat (init c [r])
               = mkSystem (snd (draw_key (set_buffer [] c))) (Some 0%nat)
                   [mkThread r (Filling (frame_of r k)) (Some k)])
    by reflexivity.
  rewrite E1, fill_alone. reflexivity.
Qed.

End Facts.

End GateFacts.

(** * The claims *)

Import U8 U8Facts CodecFacts WSSClient SendGate GateFacts Engine EngineFacts.

Lemma Encode_length (op : Opcode) (data : list byte) (status : option N)
    (key : MaskKey) :
  let len := length (logical_payload op data status) in
  length (Encode op data status key)
  = (5 + len + (if (N.of_nat len <=? 125)%N then 1
                else if (N.of_nat len <=? 65535)%N then 3 else 9))%nat.
Proof.
  intros len. unfold Encode.
  cbn [length]. rewrite !length_app, length_field_length, mask_payload_length.
  fold len. cbn [key_bytes length]. lia.
Qed.

(** C1. For every payload byte sequence P (one whose frame fits the
    64-bit sizes of the program), decoding the frame Encode builds for
    (Text, P) gives one complete Text frame with payload P and no
    leftover bytes, whatever mask key was drawn. *)
Theorem Decode_Encode_Text (P : list byte) (key : MaskKey) :
  N.of_nat (length (Encode Text P None key)) < size_max ->
  Decode (Encode Text P None key) = Decoded [mkFrame Text true P None] [].
Proof.
  intros Hfit.
  rewrite <- (app_nil_r (Encode Text P None key)).
  rewrite Decode_Encode_app; [reflexivity|].
  rewrite Encode_length in Hfit. cbn [logical_payload] in *.
  destruct (N.leb_spec (N.of_nat (length P)) 125);
    [|destruct (N.leb_spec (N.of_nat (length P)) 65535)];
    unfold size_max in *; lia.
Qed.

Lemma Decode_Encode_Text_witness :
  Decode (Encode Text ["H"; "e"; "l"; "l"; "o"]%byte None sample_key)
  = Decoded [mkFrame Text true ["H"; "e"; "l"; "l"; "o"]%byte None] [].
Proof.
  apply Decode_Encode_Text. vm_compute. reflexivity.
Defined.

(** C2. Encode chooses the length form by the length of what it frames
    (the payload; for a Close frame the status code followed by the
    payload):
    up to 125 the 7-bit field holds the length itself, from 126 to
    65535 the field is 126 and a 16-bit big-endian length follows, from
    65536 on the field is 127 and a 64-bit big-endian length follows;
    the mask bit is always set and the key and the masked payload come
    right after.  Text payloads of length 0, 125, 126, 65535 and 65536
    get the literal, literal, 16-bit, 16-bit and 64-bit form. *)
Theorem Encode_length_form (op : Opcode) (data : list byte) (status : option N)
    (key : MaskKey) :
  let body := logical_payload op data status in
  let len := N.of_nat (length body) in
  let frame := Encode op data status key in
  mask_bit frame = true
  /\ (len <= 125 ->
      len7 frame = len
      /\ drop 2 frame = key_bytes key ++ mask_payload key body)
  /\ (126 <= len <= 65535 ->
      len7 frame = 126 /\ len16 frame = len
      /\ drop 4 frame = key_bytes key ++ mask_payload key body)
  /\ (65536 <= len < size_max ->
      len7 frame = 127 /\ len64 frame = len
      /\ drop 10 frame = key_bytes key ++ mask_payload key body)
  /\ (op = Text ->
      (len = 0 \/ len = 125 -> len7 frame = len)
      /\ (len = 126 \/ len = 65535 -> len7 frame = 126 /\ len16 frame = len)
      /\ (len = 65536 -> len7 frame = 127 /\ len64 frame = len)).
Proof.
  intros body len frame.
  assert (Hlit : len <= 125 ->
      mask_bit frame = true /\ len7 frame = len
      /\ drop 2 frame = key_bytes key ++ mask_payload key body).
  { intros Hlen. subst frame. unfold Encode, length_field. fold body len.
    replace (len <=? 125) with true by (symmetry; apply N.leb_le; lia).
    unfold mask_bit, len7. cbn [app lookup list_lookup drop].
    destruct (second_byte len) as [-> ->]; [lia|]. auto. }
  assert (H16 : 126 <= len <= 65535 ->
      mask_bit frame = true /\ len7 frame = 126 /\ len16 frame = len
      /\ drop 4 frame = key_bytes key ++ mask_payload key body).
  { intros Hlen. subst frame. unfold Encode, length_field. fold body len.
    replace (len <=? 125) with false by (symmetry; apply N.leb_gt; lia).
    replace (len <=? 65535) with true by (symmetry; apply N.leb_le; lia).
    unfold mask_bit, len7, len16. cbn [app lookup list_lookup drop take be_bytes].
    repeat split.
    change (be_value (be_bytes 2 len) = len).
    apply be_value_be_bytes_small. change (2 ^ (8 * N.of_nat 2)) with 65536. lia. }
  assert (H64 : 65536 <= len ->
      mask_bit frame = true /\ len7 frame = 127
      /\ len64 frame = len mod size_max
      /\ drop 10 frame = key_bytes key ++ mask_payload key body).
  { intros Hlen. subst frame. unfold Encode, length_field. fold body len.
    replace (len <=? 125) with false by (symmetry; apply N.leb_gt; lia).
    replace (len <=? 65535) with false by (symmetry; apply N.leb_gt; lia).
    unfold mask_bit, len7, len64. cbn [app lookup list_lookup drop take be_bytes].
    repeat split.
    change (be_value (be_bytes 8 len) = len mod size_max).
    apply be_value_be_bytes. }
  split; [|split; [|split; [|split]]].
  - destruct (N.le_gt_cases len 125) as [Hc|Hc]; [now apply Hlit|].
    destruct (N.le_gt_cases len 65535) as [Hd|Hd]; [apply H16; lia|apply H64; lia].
  - intros Hlen. apply Hlit. lia.
  - intros Hlen. apply H16. lia.
  - intros [Hlo Hhi]. destruct (H64 Hlo) as (_ & ? & E & ?).
    rewrite N.mod_small in E by assumption. auto.
  - intros _. split; [|split].
    + intros E. apply Hlit. lia.
    + intros E. destruct H16 as (_ & ? & ? & _); [lia|]. auto.
    + intros E. destruct H64 as (_ & ? & E64 & _); [lia|]. split; [assumption|].
      rewrite E64, E. reflexivity.
Qed.

(** The five boundary payloads of C2, encoded and read back. *)
Lemma Encode_length_form_witness :
  let frame n := Encode Text (repeat "a"%byte (N.to_nat n)) None sample_key in
  len7 (frame 0) = 0
  /\ len7 (frame 125) = 125
  /\ (len7 (frame 126) = 126 /\ len16 (frame 126) = 126)
  /\ (len7 (frame 65535) = 126 /\ len16 (frame 65535) = 65535)
  /\ (len7 (frame 65536) = 127 /\ len64 (frame 65536) = 65536).
Proof.
  intros frame. subst frame. cbv beta.
  assert (B : forall n,
    let frame := Encode Text (repeat "a"%byte (N.to_nat n)) None sample_key in
    (n = 0 \/ n = 125 -> len7 frame = n)
    /\ (n = 126 \/ n = 65535 -> len7 frame = 126 /\ len16 frame = n)
    /\ (n = 65536 -> len7 frame = 127 /\ len64 frame = n)).
  { intros n.
    pose proof (Encode_length_form Text (repeat "a"%byte (N.to_nat n))
                  None sample_key) as (_ & _ & _ & _ & E).
    cbn [logical_payload] in E. rewrite repeat_length, N2Nat.id in E.
    exact (E eq_refl). }
  cbv zeta in B.
  split; [|split; [|split; [|split]]].
  - exact (proj1 (B 0) (or_introl eq_refl)).
  - exact (proj1 (B 125) (or_intror eq_refl)).
  - exact (proj1 (proj2 (B 126)) (or_introl eq_refl)).
  - exact (proj1 (proj2 (B 65535)) (or_intror eq_refl)).
  - exact (proj2 (proj2 (B 65536)) eq_refl).
Defined.

(** A duplicate-free list that holds exactly 0 and 1 is one of the two
    orders of them. *)
Lemma two_in_some_order (order : list nat) :
  NoDup order -> (forall i, i ∈ order <-> i = 0%nat \/ i = 1%nat) ->
  order = [0; 1]%nat \/ order = [1; 0]%nat.
Proof.
  intros Hnd Hel.
  assert (H0 : 0%nat ∈ order) by (apply Hel; auto).
  assert (H1 : 1%nat ∈ order) by (apply Hel; auto).
  destruct order as [|a [|b [|c rest]]].
  - inversion H0.
  - apply list_elem_of_singleton in H0, H1. lia.
  - assert (Ha : a = 0%nat \/ a = 1%nat) by (apply Hel; left).
    assert (Hb : b = 0%nat \/ b = 1%nat) by (apply Hel; right; left).
    apply NoDup_cons in Hnd as [Hab _].
    rewrite list_elem_of_singleton in Hab.
    destruct Ha as [-> | ->], Hb as [-> | ->]; auto; contradiction.
  - exfalso.
    assert (Ha : a = 0%nat \/ a = 1%nat) by (apply Hel; left).
    assert (Hb : b = 0%nat \/ b = 1%nat) by (apply Hel; right; left).
    assert (Hc : c = 0%nat \/ c = 1%nat) by (apply Hel; right; right; left).
    apply NoDup_cons in Hnd as [Hab Hnd]. apply NoDup_cons in Hnd as [Hbc _].
    rewrite !elem_of_cons in Hab. rewrite !elem_of_cons in Hbc. intuition lia.
Qed.

(** C3. However the steps of the threads calling the send methods of
    one client are interleaved: at most one thread is between taking
    and giving up the send lock, where the frame is built and handed
    over; and what the transport is handed are whole frames, one for
    each thread that got that far, in the order in which they did.  In
    particular, once two concurrent calls have both returned the
    transport has seen their two complete frames, in one order or the
    other. *)
Theorem send_gate_serialises {T : Type} `{HTTPSClient T} (c : WSSClient.t T)
    (reqs : list Request) (schedule : list nat) :
  let s := run schedule (init c reqs) in
  (forall i j thi thj,
      threads s !! i = Some thi -> threads s !! j = Some thj ->
      in_region thi = true -> in_region thj = true -> i = j)
  /\ (exists order news,
        calls (SendGate.client s) = calls c ++ news
        /\ NoDup order
        /\ (forall i, i ∈ order <->
                      exists th, threads s !! i = Some th /\ has_sent th = true)
        /\ Forall2 (whole_frame_of reqs) order news)
  /\ (forall r1 r2,
        reqs = [r1; r2] ->
        (forall i th, threads s !! i = Some th -> pc th = Returned) ->
        exists k1 k2,
          let call1 := call_of (rq_mode r1) (frame_of r1 k1) in
          let call2 := call_of (rq_mode r2) (frame_of r2 k2) in
          calls (SendGate.client s) = calls c ++ [call1; call2]
          \/ calls (SendGate.client s) = calls c ++ [call2; call1]).
Proof.
  intros s.
  destruct (run_invariant c reqs schedule)
    as (Hreq & Hlock & Hfill & order & news & Hcalls & Hnd & Hord & Hall).
  fold s in Hreq, Hlock, Hfill, Hcalls, Hord, Hall.
  assert (Hwhole : Forall2 (whole_frame_of reqs) order news).
  { eapply Forall2_impl; [exact Hall|].
    intros i call (th & k & Hth & _ & Hk & Hcall).
    exists (request th), k. split; [|assumption].
    rewrite <- Hreq. change (map request (threads s)) with (request <$> threads s).
    now rewrite list_lookup_fmap, Hth. }
  split; [|split].
  - intros i j thi thj Hi Hj Hri Hrj.
    apply (Hlock i thi Hi) in Hri. apply (Hlock j thj Hj) in Hrj. congruence.
  - exists order, news. auto.
  - intros r1 r2 -> Hdone.
    assert (Hlen : length (threads s) = 2%nat)
      by (rewrite <- (length_map request), Hreq; reflexivity).
    destruct (two_in_some_order order Hnd) as [-> | ->].
    { intros i. rewrite Hord. split.
      - intros (th & Hth & _). apply lookup_lt_Some in Hth. lia.
      - intros Hi.
        destruct (lookup_lt_is_Some_2 (threads s) i) as [th Hth]; [lia|].
        exists th. split; [assumption|].
        unfold has_sent. now rewrite (Hdone i th Hth). }
    + apply Forall2_cons_inv_l in Hwhole as (c1 & rest & W1 & Hwhole & ->).
      apply Forall2_cons_inv_l in Hwhole as (c2 & rest' & W2 & Hwhole & ->).
      apply Forall2_nil_inv_l in Hwhole as ->.
      destruct W1 as (r & k1 & [= <-] & ->), W2 as (r & k2 & [= <-] & ->).
      exists k1, k2. left. exact Hcalls.
    + apply Forall2_cons_inv_l in Hwhole as (c1 & rest & W1 & Hwhole & ->).
      apply Forall2_cons_inv_l in Hwhole as (c2 & rest' & W2 & Hwhole & ->).
      apply Forall2_nil_inv_l in Hwhole as ->.
      destruct W1 as (r & k2 & [= <-] & ->), W2 as (r & k1 & [= <-] & ->).
      exists k1, k2. right. exact Hcalls.
Qed.

(** The two calls of the specification, [SendText("AAA")] and
    [SendText("BBB")], under a schedule in which they contend for the
    lock: the transport is handed the two whole frames. *)
Lemma send_gate_serialises_witness :
  let s := run (H := pipe) contended (init (sample_client true) two_senders) in
  exists k1 k2,
    calls (SendGate.client s)
      = [CallSend (frame_of (send_text "AAA") k1); CallSend (frame_of (send_text "BBB") k2)]
    \/ calls (SendGate.client s)
       = [CallSend (frame_of (send_text "BBB") k2); CallSend (frame_of (send_text "AAA") k1)].
Proof.
  intros s.
  destruct (send_gate_serialises (H := pipe) (sample_client true) two_senders contended)
    as (_ & _ & Htwo).
  apply (Htwo (send_text "AAA") (send_text "BBB") eq_refl).
  intros i th. vm_compute.
  destruct i as [|[|i]]; intros [= <-]; reflexivity.
Defined.

Lemma Disconnect_unfold {T : Type} `{HTTPSClient T} (c : WSSClient.t T) :
  WSSClient.Disconnect c =
  let '(_, tr1) := Send (close_1000 c) (transport c) in
  let '(ok, tr2) := HTTPS.Disconnect tr1 in
  (ok, WSSClient.mk tr2 (close_1000 c) (ws_random c) (S (ws_random_pos c))
         (sync_connect c) (calls c ++ [CallSend (close_1000 c); CallDisconnect])
         (errors c)).
Proof.
  unfold WSSClient.Disconnect, SendClose, HTTPSClient_Send, HTTPSClient_Disconnect,
    PrepareSendFrame.
  cbn [ws_send_buffer transport calls with_transport nullptr take].
  change (Encode WS_CLOSE [] (Some (status_u16 1000)) _) with (close_1000 c).
  destruct (Send (close_1000 c) (transport c)) as [n tr1].
  cbn [transport calls with_transport].
  destruct (HTTPS.Disconnect tr1) as [ok tr2].
  unfold with_transport. cbn. now rewrite <- app_assoc.
Qed.

Lemma DisconnectAsync_unfold {T : Type} `{HTTPSClient T} (c : WSSClient.t T) :
  WSSClient.DisconnectAsync c =
  let '(_, tr1) := SendAsync (close_1000 c) (transport c) in
  let '(ok, tr2) := HTTPS.DisconnectAsync tr1 in
  (ok, WSSClient.mk tr2 (close_1000 c) (ws_random c) (S (ws_random_pos c))
         (sync_connect c)
         (calls c ++ [CallSendAsync (close_1000 c); CallDisconnectAsync])
         (errors c)).
Proof.
  unfold WSSClient.DisconnectAsync, SendCloseAsync, HTTPSClient_SendAsync,
    HTTPSClient_DisconnectAsync, PrepareSendFrame.
  cbn [ws_send_buffer transport calls with_transport nullptr take].
  change (Encode WS_CLOSE [] (Some (status_u16 1000)) _) with (close_1000 c).
  destruct (SendAsync (close_1000 c) (transport c)) as [n tr1].
  cbn [transport calls with_transport].
  destruct (HTTPS.DisconnectAsync tr1) as [ok tr2].
  unfold with_transport. cbn. now rewrite <- app_assoc.
Qed.

(** C4. Every call of Disconnect hands a Close frame with status 1000
    and no reason to the transport's synchronous Send and then calls the
    transport's Disconnect; these are the only two things it asks of the
    transport, it reads nothing from the remote in between, and it
    returns (it is a total function of the client and the transport). *)
Theorem Disconnect_sends_close_first {T : Type} `{HTTPSClient T} (c : WSSClient.t T) :
  calls (snd (WSSClient.Disconnect c))
    = calls c ++ [CallSend (close_1000 c); CallDisconnect]
  /\ Decode (close_1000 c)
     = Decoded [mkFrame Close true (be_bytes 2 1000) (Some 1000)] []
  /\ transport (snd (WSSClient.Disconnect c))
     = snd (HTTPS.Disconnect (snd (Send (close_1000 c) (transport c)))).
Proof.
  rewrite Disconnect_unfold.
  destruct (Send (close_1000 c) (transport c)) as [n tr1]. cbn [snd].
  destruct (HTTPS.Disconnect tr1) as [ok tr2].
  split; [reflexivity|split; [|reflexivity]].
  unfold close_1000. rewrite <- (app_nil_r (Encode _ _ _ _)).
  rewrite Decode_Encode_app by (vm_compute; reflexivity). reflexivity.
Qed.

(** C5. Whenever the bytes received complete a Close frame and the
    connection is Open when that frame's turn comes, the engine hands
    the transport a Close frame that carries the received status code,
    or 1000 if the received frame had none, and then asks the transport
    to disconnect; this holds whatever else the delivery holds: whole
    frames before the Close frame, frames after it, a frame still
    incomplete or a malformed one at the end.  Nothing is sent after the
    echo; the state is then ClosingRemote, or Closed if a fault
    followed, and Closed once the transport reports the disconnect. *)
Theorem close_frame_is_echoed {T : Type} `{HTTPSClient T} (bytes : list byte)
    (e : Engine.t T) (pre post : list Frame) (f : Frame) (ending : StreamEnd) :
  state e = Open ->
  decode_stream (received e ++ bytes) = (pre ++ f :: post, ending) ->
  opcode f = Close ->
  state (handle_frames pre e) = Open ->
  let status := default 1000 (closeStatus f) in
  let echo :=
    Encode Close [] (Some status)
      (ws_random (client e) (ws_random_pos (client e))) in
  let e' := onReceived bytes e in
  exists later,
    calls (client e')
      = calls (client e) ++ [CallSendAsync echo; CallDisconnectAsync] ++ later
    /\ only_disconnects later
    /\ Decode echo = Decoded [mkFrame Close true (be_bytes 2 status) (Some status)] []
    /\ (state e' = ClosingRemote \/ state e' = Closed)
    /\ state (onDisconnected e') = Closed
    /\ (post = [] -> (exists leftover, ending = Rest leftover) ->
        later = [] /\ state e' = ClosingRemote).
Proof.
  intros Hopen Hs Hop Hpre status echo e'.
  assert (Hst : closeStatus f = close_status Close (payload f)).
  { pose proof (stream_loop_ok _ _ _ _ Hs) as Hok.
    apply Forall_app in Hok as [_ Hok]. apply Forall_cons in Hok as [[_ Hf] _].
    now rewrite Hop in Hf. }
  destruct (handle_frames_still_open pre e Hpre) as [_ Hclient].
  assert (Hmid : forall l,
    let e3 := handle_frames (pre ++ f :: post)
                (Engine.mk (client e) (state e) l (pending e) (queue e)
                   (handler e) (handled e)) in
    Decode echo = Decoded [mkFrame Close true (be_bytes 2 status) (Some status)] []
    /\ exists later,
         calls (client e3)
           = calls (client e) ++ [CallSendAsync echo; CallDisconnectAsync] ++ later
         /\ only_disconnects later
         /\ (state e3 = ClosingRemote \/ state e3 = Closed)
         /\ (post = [] -> later = [] /\ state e3 = ClosingRemote)).
  { intros l e3. subst e3.
    set (e0 := Engine.mk (client e) (state e) l (pending e) (queue e)
                 (handler e) (handled e)).
    assert (Happ : handle_frames (pre ++ f :: post) e0
                   = handle_frames post (handle_frame f (handle_frames pre e0)))
      by (unfold handle_frames; now rewrite fold_left_app).
    rewrite Happ. clear Happ.
    assert (Ha : alike (handle_frames pre e) (handle_frames pre e0))
      by (apply handle_frames_alike; repeat split).
    destruct Ha as (Hc1 & Hs1 & _).
    set (e1 := handle_frames pre e0) in *.
    assert (Ho1 : state e1 = Open) by congruence.
    assert (Hk1 : client e1 = client e) by congruence.
    destruct (close_frame_handled f e1 Ho1 Hop Hst) as (Hcalls & Hdec & Hs2).
    cbv zeta in Hcalls, Hdec. rewrite Hk1 in Hcalls, Hdec.
    fold status in Hcalls, Hdec. fold echo in Hcalls, Hdec.
    split; [exact Hdec|].
    destruct (handle_frames_not_open post (handle_frame f e1)) as (later & Hc3 & Hd3 & Hs3);
      [congruence|].
    exists later. rewrite Hc3, Hcalls, <- app_assoc.
    split; [reflexivity|]. split; [assumption|]. split.
    - rewrite Hs2 in Hs3. exact Hs3.
    - intros ->. cbn [handle_frames fold_left] in *.
      split; [|assumption].
      rewrite Hcalls in Hc3. rewrite <- app_assoc in Hc3.
      apply app_inv_head in Hc3.
      change [CallSendAsync echo; CallDisconnectAsync]
        with ([CallSendAsync echo; CallDisconnectAsync] ++ []) in Hc3 at 1.
      apply app_inv_head in Hc3. now symmetry. }
  subst e'. unfold onReceived. rewrite Hs.
  replace (is_closed (state e)) with false by (now rewrite Hopen).
  destruct ending as [leftover|why].
  - destruct (Hmid leftover) as (Hdec & later & Hc & Hd & Hstate & Hlast).
    exists later. split; [assumption|]. split; [assumption|].
    split; [assumption|]. split; [assumption|]. split; [reflexivity|].
    intros Hpost _. now apply Hlast.
  - destruct (Hmid []) as (Hdec & later & Hc & Hd & Hstate & _).
    cbv zeta.
    destruct Hstate as [Hcr|Hcl].
    + rewrite Hcr. cbn [is_closed].
      destruct (protocol_fault_state why
                  (handle_frames (pre ++ f :: post)
                     (Engine.mk (client e) (state e) [] (pending e) (queue e)
                        (handler e) (handled e)))) as [Hps Hpc].
      exists (later ++ [CallDisconnectAsync]).
      split; [rewrite Hpc, Hc, <- !app_assoc; reflexivity|].
      split; [apply Forall_app; split; [assumption|repeat constructor]|].
      split; [assumption|]. split; [now right|]. split; [reflexivity|].
      intros _ (leftover & Hl). discriminate.
    + rewrite Hcl. cbn [is_closed].
      exists later. split; [assumption|]. split; [assumption|].
      split; [assumption|]. split; [now right|]. split; [reflexivity|].
      intros _ (leftover & Hl). discriminate.
Qed.

Lemma close_frame_is_echoed_witness :
  let e' := onReceived (H := pipe) close_then_stray_byte (sample_engine Open) in
  exists later,
    calls (client e')
      = [CallSendAsync (Encode Close [] (Some 1001) sample_key); CallDisconnectAsync]
          ++ later
    /\ only_disconnects later
    /\ state (onDisconnected e') = Closed.
Proof.
  destruct (close_frame_is_echoed (H := pipe) close_then_stray_byte (sample_engine Open)
              [mkFrame Pong true [] None] [] close_1001 (Broken TruncatedHeader))
    as (later & Hcalls & Hd & _ & _ & Hcl & _); try reflexivity.
  exists later. split; [exact Hcalls|]. split; [exact Hd|exact Hcl].
Defined.

(** C6. When the bytes to decode start with a malformed frame (an
    opcode that is none of the six, a header cut short, a length that
    overflows), Decode signals a protocol error and the receive path
    tears the connection down: the error is reported once through
    onWSError, the transport is asked to disconnect, the state is
    Closed, and nothing else happens: no frame is delivered, nothing is
    sent, nothing is kept for a later attempt. *)
Theorem malformed_frame_tears_down {T : Type} `{HTTPSClient T}
    (bytes : list byte) (e : Engine.t T) :
  malformed (received e ++ bytes) = true ->
  state e <> Closed ->
  exists why,
    Decode (received e ++ bytes) = ProtocolError why
    /\ let e' := onReceived bytes e in
       state e' = Closed
       /\ calls (client e') = calls (client e) ++ [CallDisconnectAsync]
       /\ errors (client e')
          = errors (client e)
              ++ [mkError asio_error_fault "WebSocket error" (fault_message why)]
       /\ queue e' = queue e
       /\ handled e' = handled e
       /\ received e' = []
       /\ pending e' = None.
Proof.
  intros Hbad Hopen.
  destruct (decode_stream_malformed _ Hbad) as (why & Hd).
  exists why. split; [now rewrite Decode_outcome, Hd|].
  unfold onReceived. rewrite Hd.
  replace (is_closed (state e)) with false by (now destruct (state e)).
  cbn [handle_frames fold_left state].
  replace (is_closed (state e)) with false by (now destruct (state e)).
  apply (protocol_fault_effect why
           (Engine.mk (client e) (state e) [] (pending e) (queue e)
              (handler e) (handled e))).
Qed.

Lemma malformed_frame_tears_down_witness :
  Decode bad_opcode_bytes = ProtocolError InvalidOpcode
  /\ state (onReceived (H := pipe) bad_opcode_bytes (sample_engine Open)) = Closed.
Proof.
  destruct (malformed_frame_tears_down (H := pipe) bad_opcode_bytes (sample_engine Open))
    as (why & Hd & Hst & _).
  - vm_compute. reflexivity.
  - cbn. discriminate.
  - split; [vm_compute; reflexivity|exact Hst].
Defined.

(** C7. A ReceiveText or ReceiveBinary with a timeout that finds the
    receive queue empty until the timeout has passed returns an empty
    result, no later than the timeout, having changed nothing itself
    (no error is raised or reported); and on a Closed connection with
    an empty queue every receive, with or without timeout, returns an
    empty result at once. *)
Theorem receive_returns_empty {T : Type} `{HTTPSClient T}
    (timeout : Timespan) (io : IoSchedule) (now : nat) (e : Engine.t T) :
  ((forall k, (k <= ticks timeout)%nat -> queue (advance io now k e) = []) ->
   exists k,
     (k <= ticks timeout)%nat
     /\ ReceiveText_t timeout io now e = (""%string, (now + k)%nat, advance io now k e)
     /\ ReceiveBinary_t timeout io now e = ([], (now + k)%nat, advance io now k e)
     /\ (k = ticks timeout \/ state (advance io now k e) = Closed))
  /\ (state e = Closed -> queue e = [] ->
      ReceiveText_t timeout io now e = (""%string, now, e)
      /\ ReceiveBinary_t timeout io now e = ([], now, e)
      /\ forall horizon,
           ReceiveText horizon io now e = Some (""%string, now, e)
           /\ ReceiveBinary horizon io now e = Some ([], now, e)).
Proof.
  split.
  - intros Hq.
    destruct (wait_message_empty _ io now e Hq) as (k & Hk & [[Hw Hn]|[Hw Hc]]);
      exists k; unfold ReceiveText_t, ReceiveBinary_t; rewrite Hw; auto.
  - intros Hc Hq.
    unfold ReceiveText_t, ReceiveBinary_t, ReceiveText, ReceiveBinary.
    rewrite !wait_message_closed by assumption.
    repeat split; intros; now rewrite wait_message_closed.
Qed.

Lemma advance_quiet (now k : nat) (e : Engine.t Pipe) :
  advance (H := pipe) quiet now k e = e.
Proof.
  revert now. induction k as [|k IH]; intros now; [reflexivity|].
  cbn [advance]. apply IH.
Qed.

Lemma receive_returns_empty_witness :
  ReceiveText_t (H := pipe) 100%Z quiet 0 (sample_engine Open)
    = (""%string, 100%nat, sample_engine Open)
  /\ ReceiveText_t (H := pipe) 100%Z quiet 7 (sample_engine Closed)
     = (""%string, 7%nat, sample_engine Closed).
Proof.
  split.
  - destruct (receive_returns_empty (H := pipe) 100%Z quiet 0 (sample_engine Open))
      as [Ht _].
    destruct Ht as (k & Hk & Hr & _ & [Hn|Hc]).
    + intros k _. now rewrite advance_quiet.
    + rewrite Hr, Hn, advance_quiet. reflexivity.
    + rewrite advance_quiet in Hc. discriminate.
  - destruct (receive_returns_empty (H := pipe) 100%Z quiet 7 (sample_engine Closed))
      as [_ Hc].
    apply Hc; reflexivity.
Defined.

(** C8. For every fault message m, onWSError puts exactly one report on
    the client's error channel, with the fault error code, the category
    "WebSocket error" and the message m, and does nothing else: no call
    to the transport, no change to the send buffer. *)
Theorem onWSError_reports_once {T : Type} `{HTTPSClient T}
    (m : string) (c : WSSClient.t T) :
  errors (onWSError m c) = errors c ++ [mkError asio_error_fault "WebSocket error" m]
  /\ calls (onWSError m c) = calls c
  /\ transport (onWSError m c) = transport c
  /\ ws_send_buffer (onWSError m c) = ws_send_buffer c
  /\ ws_random_pos (onWSError m c) = ws_random_pos c.
Proof.
  repeat split.
Qed.

Lemma sv_data_length (text : string) : length (sv_data text) = sv_size text.
Proof.
  unfold sv_data, sv_size, String.list_byte_of_string.
  rewrite length_map.
  induction text as [|a text IH]; cbn; [reflexivity|]. now rewrite IH.
Qed.

Lemma sv_whole (text : string) : take (sv_size text) (sv_data text) = sv_data text.
Proof.
  apply take_ge. now rewrite sv_data_length.
Qed.

(** C9. For every send operation and each of its three variants, the
    (buffer, size) overload and the string_view overload called with
    the same bytes return the same result and leave the same client:
    the same frame in the send buffer and the same calls, with the same
    bytes, made to the transport.  A timeout overload builds the frame
    its plain counterpart builds. *)
Theorem overloads_agree {T : Type} `{HTTPSClient T} (o : Operation) (v : Variant)
    (buffer : list byte) (size : nat) (text : string) (c : WSSClient.t T) :
  take size buffer = sv_data text ->
  call_buffer o v buffer size c = call_view o v text c
  /\ forall timeout,
       ws_send_buffer (snd (call_buffer o (WithTimeout timeout) buffer size c))
       = ws_send_buffer (snd (call_buffer o Plain buffer size c))
       /\ ws_send_buffer (snd (call_view o (WithTimeout timeout) text c))
          = ws_send_buffer (snd (call_view o Plain text c)).
Proof.
  intros Hsame. split.
  - destruct o, v; cbn [call_buffer call_view];
      unfold SendText, SendText_sv, SendText_t, SendText_sv_t, SendTextAsync,
        SendTextAsync_sv, SendBinary, SendBinary_sv, SendBinary_t, SendBinary_sv_t,
        SendBinaryAsync, SendBinaryAsync_sv, SendClose, SendClose_sv, SendClose_t,
        SendClose_sv_t, SendCloseAsync, SendCloseAsync_sv, SendPing, SendPing_sv,
        SendPing_t, SendPing_sv_t, SendPingAsync, SendPingAsync_sv, SendPong,
        SendPong_sv, SendPong_t, SendPong_sv_t, SendPongAsync, SendPongAsync_sv,
        PrepareSendFrame;
      rewrite Hsame, sv_whole; reflexivity.
  - intros timeout.
    split; destruct o; cbn [call_buffer call_view counted snd];
      unfold SendText, SendText_sv, SendText_t, SendText_sv_t, SendBinary,
        SendBinary_sv, SendBinary_t, SendBinary_sv_t, SendClose, SendClose_sv,
        SendClose_t, SendClose_sv_t, SendPing, SendPing_sv, SendPing_t,
        SendPing_sv_t, SendPong, SendPong_sv, SendPong_t, SendPong_sv_t,
        HTTPSClient_Send, HTTPSClient_SendTimeout;
      repeat match goal with
             | |- context [Send ?b ?t] => destruct (Send b t)
             | |- context [SendTimeout ?b ?to ?t] => destruct (SendTimeout b to t)
             end; reflexivity.
Qed.

Lemma overloads_agree_witness :
  call_buffer (H := pipe) (OpClose 1001) Asynchronous
    ["b"; "y"; "e"; "!"; "?"]%byte 3 (sample_client true)
  = call_view (H := pipe) (OpClose 1001) Asynchronous "bye" (sample_client true).
Proof.
  apply (overloads_agree (H := pipe)). vm_compute. reflexivity.
Defined.

(** C10. Disconnect and DisconnectAsync return what the transport's
    Disconnect and DisconnectAsync return and nothing else: the result
    of the SendClose or SendCloseAsync before it is dropped, so
    reporting any other byte count or verdict for that send (zero
    bytes, rejected) leaves the boolean as it was. *)
Theorem Disconnect_result_is_transport_result {T : Type} (tr : HTTPSClient T)
    (count : N -> N) (verdict : bool -> bool) (c : WSSClient.t T) :
  fst (WSSClient.Disconnect (H := tr) c)
    = fst (HTTPS.Disconnect (transport (snd (SendClose (H := tr) 1000 nullptr 0 c))))
  /\ fst (WSSClient.DisconnectAsync (H := tr) c)
     = fst (HTTPS.DisconnectAsync
              (transport (snd (SendCloseAsync (H := tr) 1000 nullptr 0 c))))
  /\ fst (WSSClient.Disconnect (H := reporting count verdict tr) c)
     = fst (WSSClient.Disconnect (H := tr) c)
  /\ fst (WSSClient.DisconnectAsync (H := reporting count verdict tr) c)
     = fst (WSSClient.DisconnectAsync (H := tr) c).
Proof.
  rewrite !Disconnect_unfold, !DisconnectAsync_unfold.
  unfold SendClose, SendCloseAsync, HTTPSClient_Send, HTTPSClient_SendAsync,
    PrepareSendFrame.
  cbn [ws_send_buffer transport calls with_transport nullptr take reporting
       Send SendAsync HTTPS.Disconnect HTTPS.DisconnectAsync].
  change (Encode WS_CLOSE [] (Some (status_u16 1000)) _) with (close_1000 c).
  destruct (Send (close_1000 c) (transport c)) as [n tr1].
  destruct (SendAsync (close_1000 c) (transport c)) as [ok tr1'].
  cbn [transport with_transport snd].
  destruct (HTTPS.Disconnect tr1) as [r1 tr2].
  destruct (HTTPS.DisconnectAsync tr1') as [r2 tr2'].
  repeat split.
Qed.

(** * Further properties of the header's code *)

Import Family Serial.

(** ** The send methods *)

(** All thirty methods in one form: the frame [PrepareSendFrame] leaves
    in the send buffer goes to the transport member of the variant. *)
Lemma call_buffer_unfold {T : Type} `{HTTPSClient T} (o : Operation) (v : Variant)
    (buffer : list byte) (size : nat) (c : WSSClient.t T) :
  let frame :=
    ws_send_buffer
      (PrepareSendFrame (operation_opcode o) buffer size (operation_status o) c) in
  call_buffer o v buffer size c
  = (fst (transport_result v frame (transport c)),
     WSSClient.mk (snd (transport_result v frame (transport c))) frame
       (ws_random c) (S (ws_random_pos c)) (sync_connect c)
       (calls c ++ [variant_call v frame]) (errors c)).
Proof.
  intros frame. subst frame.
  destruct o, v; cbn [call_buffer operation_opcode operation_status];
    unfold SendText, SendText_t, SendTextAsync, SendBinary, SendBinary_t,
      SendBinaryAsync, SendClose, SendClose_t, SendCloseAsync, SendPing, SendPing_t,
      SendPingAsync, SendPong, SendPong_t, SendPongAsync, counted, judged,
      HTTPSClient_Send, HTTPSClient_SendTimeout, HTTPSClient_SendAsync,
      transport_result, PrepareSendFrame, with_transport;
    cbn [ws_send_buffer transport calls errors ws_random ws_random_pos sync_connect
         variant_call];
    match goal with
    | |- context [Send ?b ?t] => destruct (Send b t)
    | |- context [SendTimeout ?b ?to ?t] => destruct (SendTimeout b to t)
    | |- context [SendAsync ?b ?t] => destruct (SendAsync b t)
    end; reflexivity.
Qed.

(** X1. Every send method makes exactly one call to the transport: the
    member that goes with its variant (Send, Send with the caller's
    timeout, SendAsync), on the whole send buffer as PrepareSendFrame
    left it for the method's own opcode and status.  It returns what
    that member returns, draws one mask key, and leaves the earlier
    calls, the error channel and the connect flag alone.  A string_view
    overload is its (buffer, size) overload called with the view's data
    and size. *)
Theorem send_method_shape {T : Type} `{HTTPSClient T} (o : Operation) (v : Variant)
    (buffer : list byte) (size : nat) (text : string) (c : WSSClient.t T) :
  let frame :=
    ws_send_buffer
      (PrepareSendFrame (operation_opcode o) buffer size (operation_status o) c) in
  let r := call_buffer o v buffer size c in
  fst r = fst (transport_result v frame (transport c))
  /\ transport (snd r) = snd (transport_result v frame (transport c))
  /\ ws_send_buffer (snd r) = frame
  /\ calls (snd r) = calls c ++ [variant_call v frame]
  /\ ws_random_pos (snd r) = S (ws_random_pos c)
  /\ ws_random (snd r) = ws_random c
  /\ errors (snd r) = errors c
  /\ sync_connect (snd r) = sync_connect c
  /\ call_view o v text c = invoke (view_call o v text) c.
Proof.
  intros frame r. subst r. rewrite call_buffer_unfold. fold frame.
  repeat split.
Qed.

Lemma status_u16_bound (status : Z) : status_u16 status < 65536.
Proof.
  unfold status_u16. pose proof (Z.mod_pos_bound status 65536). lia.
Qed.

Lemma close_status_prefixed (s : N) (data : list byte) :
  s < 65536 -> close_status Close (be_bytes 2 s ++ data) = Some s.
Proof.
  intros Hs. unfold close_status.
  rewrite length_app, be_bytes_length. cbn [Nat.leb Nat.add].
  rewrite take_app_length' by (now rewrite be_bytes_length).
  rewrite be_value_be_bytes_small; [reflexivity|].
  change (2 ^ (8 * N.of_nat 2)) with 65536. exact Hs.
Qed.

(** X2. What a send method hands to the transport decodes to exactly
    one final frame of the method's own opcode that carries the [size]
    bytes at [buffer]; for the close methods the frame carries the
    status (as a 16-bit number) in front of them.  Nothing is left
    over, so one call is one frame. *)
Theorem sent_frame_decodes {T : Type} `{HTTPSClient T} (o : Operation) (v : Variant)
    (buffer : list byte) (size : nat) (c : WSSClient.t T) :
  N.of_nat size + 16 < size_max ->
  let r := call_buffer o v buffer size c in
  let data := take size buffer in
  exists frame,
    calls (snd r) = calls c ++ [variant_call v frame]
    /\ Decode frame
       = Decoded
           [mkFrame (operation_opcode o) true
              (match o with
               | OpClose status => be_bytes 2 (status_u16 status) ++ data
               | _ => data
               end)
              (match o with
               | OpClose status => Some (status_u16 status)
               | _ => None
               end)] [].
Proof.
  intros Hfit r data. subst r. rewrite call_buffer_unfold.
  eexists. split; [reflexivity|].
  unfold PrepareSendFrame. cbn [ws_send_buffer].
  rewrite <- (app_nil_r (Encode _ _ _ _)).
  assert (Hlen : (length data <= size)%nat)
    by (subst data; rewrite length_take; lia).
  rewrite Decode_Encode_app.
  - cbn [Decode decode_loop length].
    destruct o as [| |status| |]; cbn [operation_opcode operation_status logical_payload
      WS_TEXT WS_BINARY WS_CLOSE WS_PING WS_PONG]; try reflexivity.
    fold data. now rewrite close_status_prefixed by apply status_u16_bound.
  - fold data.
    assert (Hbody : (length (logical_payload (operation_opcode o) data
                              (Some (status_u16 (operation_status o))))
                     <= 2 + length data)%nat).
    { destruct o; cbn [operation_opcode logical_payload WS_TEXT WS_BINARY WS_CLOSE
                       WS_PING WS_PONG]; try lia.
      rewrite length_app, be_bytes_length. lia. }
    lia.
Qed.

Lemma sent_frame_decodes_witness :
  exists frame,
    calls (snd (call_buffer (H := pipe) (OpClose 1001) Plain
                  ["b"; "y"; "e"; "!"]%byte 3 (sample_client true)))
      = [CallSend frame]
    /\ Decode frame
       = Decoded [mkFrame Close true ["003"; "233"; "b"; "y"; "e"]%byte (Some 1001)] [].
Proof.
  destruct (sent_frame_decodes (H := pipe) (OpClose 1001) Plain
              ["b"; "y"; "e"; "!"]%byte 3 (sample_client true))
    as (frame & Hc & Hd).
  - vm_compute. reflexivity.
  - exists frame. split; [exact Hc|exact Hd].
Defined.

Lemma send_all_snoc {T : Type} `{HTTPSClient T} (ms : list MethodCall) (m : MethodCall)
    (c : WSSClient.t T) :
  send_all (ms ++ [m]) c = snd (invoke m (send_all ms c)).
Proof.
  unfold send_all. now rewrite fold_left_app.
Qed.

Lemma calls_in_sequence_facts {T : Type} `{HTTPSClient T} (ms : list MethodCall)
    (c : WSSClient.t T) :
  calls (send_all ms c)
    = calls c ++ imap (fun i m => variant_call (mc_variant m) (nth_frame c i m)) ms
  /\ ws_random_pos (send_all ms c) = (ws_random_pos c + length ms)%nat
  /\ ws_random (send_all ms c) = ws_random c.
Proof.
  induction ms as [|m ms IH] using rev_ind.
  - cbn. rewrite app_nil_r, Nat.add_0_r. repeat split.
  - destruct IH as (Hcalls & Hpos & Hrand).
    rewrite send_all_snoc. unfold invoke. rewrite call_buffer_unfold.
    cbn [snd calls ws_random_pos ws_random].
    rewrite length_app, imap_app. cbn [length imap].
    unfold PrepareSendFrame. cbn [ws_send_buffer].
    rewrite Hcalls, Hpos, Hrand, Nat.add_0_r.
    unfold nth_frame. rewrite <- app_assoc.
    repeat split. lia.
Qed.

(** X3. Calls made one after the other reach the transport in call
    order, one transport call each, the i-th frame masked with the i-th
    key drawn from the random source; the send buffer ends up holding
    the last frame only, and the error channel is untouched. *)
Theorem calls_in_sequence {T : Type} `{HTTPSClient T} (ms : list MethodCall)
    (c : WSSClient.t T) :
  let c' := send_all ms c in
  calls c'
    = calls c ++ imap (fun i m => variant_call (mc_variant m) (nth_frame c i m)) ms
  /\ ws_random_pos c' = (ws_random_pos c + length ms)%nat
  /\ ws_random c' = ws_random c
  /\ ws_send_buffer c'
     = match last ms with
       | Some m => nth_frame c (length ms - 1) m
       | None => ws_send_buffer c
       end
  /\ errors c' = errors c.
Proof.
  induction ms as [|m ms IH] using rev_ind.
  - cbn. rewrite app_nil_r, Nat.add_0_r. repeat split.
  - destruct IH as (Hcalls & Hpos & Hrand & _ & Herr).
    cbn zeta. rewrite send_all_snoc. unfold invoke. rewrite call_buffer_unfold.
    cbn [snd calls ws_random_pos ws_random ws_send_buffer errors].
    rewrite last_snoc, length_app, imap_app. cbn [length imap].
    unfold PrepareSendFrame. cbn [ws_send_buffer].
    rewrite Hcalls, Hpos, Hrand, Herr, Nat.add_0_r.
    replace (length ms + 1 - 1)%nat with (length ms) by lia.
    unfold nth_frame. rewrite <- app_assoc.
    repeat split. lia.
Qed.

(** ** Disconnect and DisconnectAsync *)

(** X4. Disconnect does not look at what happened before: called
    again, it again hands a Close frame with status 1000 to the
    transport, masked with the next key, and again calls the
    transport's Disconnect, whose result it returns. *)
Theorem Disconnect_again {T : Type} `{HTTPSClient T} (c : WSSClient.t T) :
  let c1 := snd (WSSClient.Disconnect c) in
  let c2 := snd (WSSClient.Disconnect c1) in
  calls c2
    = calls c ++ [CallSend (close_1000 c); CallDisconnect;
                  CallSend (close_1000 c1); CallDisconnect]
  /\ close_1000 c1
     = Encode Close [] (Some 1000) (ws_random c (S (ws_random_pos c)))
  /\ fst (WSSClient.Disconnect c1)
     = fst (HTTPS.Disconnect (snd (Send (close_1000 c1) (transport c1)))).
Proof.
  intros c1 c2.
  assert (E1 : calls c1 = calls c ++ [CallSend (close_1000 c); CallDisconnect]
               /\ ws_random c1 = ws_random c
               /\ ws_random_pos c1 = S (ws_random_pos c)).
  { subst c1. rewrite Disconnect_unfold.
    destruct (Send (close_1000 c) (transport c)) as [n tr1].
    destruct (HTTPS.Disconnect tr1) as [ok tr2]. repeat split. }
  destruct E1 as (Hcalls & Hrand & Hpos).
  split; [|split].
  - subst c2. rewrite Disconnect_unfold.
    destruct (Send (close_1000 c1) (transport c1)) as [n tr1].
    destruct (HTTPS.Disconnect tr1) as [ok tr2].
    cbn [snd calls]. rewrite Hcalls, <- app_assoc. reflexivity.
  - unfold close_1000. now rewrite Hrand, Hpos.
  - rewrite Disconnect_unfold.
    destruct (Send (close_1000 c1) (transport c1)) as [n tr1]. cbn [snd].
    destruct (HTTPS.Disconnect tr1) as [ok tr2]. reflexivity.
Qed.

(** X5. DisconnectAsync hands a Close frame with status 1000 and no
    reason to the transport's SendAsync and then calls the transport's
    DisconnectAsync; it makes no other call, and none to the
    synchronous members. *)
Theorem DisconnectAsync_sends_close_first {T : Type} `{HTTPSClient T}
    (c : WSSClient.t T) :
  calls (snd (WSSClient.DisconnectAsync c))
    = calls c ++ [CallSendAsync (close_1000 c); CallDisconnectAsync]
  /\ Decode (close_1000 c)
     = Decoded [mkFrame Close true (be_bytes 2 1000) (Some 1000)] []
  /\ transport (snd (WSSClient.DisconnectAsync c))
     = snd (HTTPS.DisconnectAsync (snd (SendAsync (close_1000 c) (transport c))))
  /\ ws_send_buffer (snd (WSSClient.DisconnectAsync c)) = close_1000 c.
Proof.
  rewrite DisconnectAsync_unfold.
  destruct (SendAsync (close_1000 c) (transport c)) as [n tr1]. cbn [snd].
  destruct (HTTPS.DisconnectAsync tr1) as [ok tr2].
  split; [reflexivity|split; [|split; reflexivity]].
  unfold close_1000. rewrite <- (app_nil_r (Encode _ _ _ _)).
  rewrite Decode_Encode_app by (vm_compute; reflexivity). reflexivity.
Qed.

(** X9. Disconnect after a series of sends: the Close frame reaches
    the transport after every frame sent before, masked with the key
    that follows theirs, and the transport's Disconnect is called
    last. *)
Theorem Disconnect_after_sends {T : Type} `{HTTPSClient T} (ms : list MethodCall)
    (c : WSSClient.t T) :
  calls (snd (WSSClient.Disconnect (send_all ms c)))
  = calls c
      ++ imap (fun i m => variant_call (mc_variant m) (nth_frame c i m)) ms
      ++ [CallSend (Encode Close [] (Some 1000)
                      (ws_random c (ws_random_pos c + length ms)));
          CallDisconnect].
Proof.
  rewrite Disconnect_unfold.
  destruct (Send _ (transport (send_all ms c))) as [n tr1].
  destruct (HTTPS.Disconnect tr1) as [ok tr2]. cbn [snd calls].
  unfold close_1000.
  pose proof (calls_in_sequence_facts ms c) as (Hcalls & Hpos & Hrand).
  rewrite Hcalls, Hpos, Hrand, <- app_assoc. reflexivity.
Qed.

(** ** onWSError *)

(** X6. Reporting an error and sending do not get in each other's way:
    a send method or a disconnect after onWSError returns what it would
    have returned without it and leaves the client as the two would in
    the other order. *)
Theorem error_report_commutes {T : Type} `{HTTPSClient T} (message : string)
    (m : MethodCall) (c : WSSClient.t T) :
  invoke m (onWSError message c)
    = (fst (invoke m c), onWSError message (snd (invoke m c)))
  /\ WSSClient.Disconnect (onWSError message c)
     = (fst (WSSClient.Disconnect c), onWSError message (snd (WSSClient.Disconnect c)))
  /\ WSSClient.DisconnectAsync (onWSError message c)
     = (fst (WSSClient.DisconnectAsync c),
        onWSError message (snd (WSSClient.DisconnectAsync c))).
Proof.
  split; [|split].
  - unfold invoke. rewrite !call_buffer_unfold. reflexivity.
  - rewrite !Disconnect_unfold. unfold close_1000, onWSError, onError.
    cbn [transport ws_random ws_random_pos].
    destruct (Send _ (transport c)) as [n tr1].
    destruct (HTTPS.Disconnect tr1) as [ok tr2]. reflexivity.
  - rewrite !DisconnectAsync_unfold. unfold close_1000, onWSError, onError.
    cbn [transport ws_random ws_random_pos].
    destruct (SendAsync _ (transport c)) as [n tr1].
    destruct (HTTPS.DisconnectAsync tr1) as [ok tr2]. reflexivity.
Qed.

(** ** The send gate: progress *)

Section GateProgress.
Context {T : Type} `{HTTPSClient T}.

Lemma frame_of_length (r : Request) (k k' : MaskKey) :
  length (frame_of r k) = length (frame_of r k').
Proof.
  unfold frame_of. now rewrite !Encode_length.
Qed.

(** Sums of work are opaque to linear arithmetic. *)
Ltac sum_lia :=
  repeat match goal with
         | |- context [sum_list ?l] =>
             let n := fresh "n" in generalize (sum_list l); intros n
         end; lia.

Lemma work_replaced (ths : list Thread) (t : nat) (old new : Thread) :
  ths !! t = Some old ->
  (sum_list (map remaining (<[t := new]> ths)) + remaining old
   = sum_list (map remaining ths) + remaining new)%nat.
Proof.
  revert t. induction ths as [|th ths IH]; intros t Ht; [discriminate|].
  assert (E : sum_list (map remaining (th :: ths))
              = (remaining th + sum_list (map remaining ths))%nat) by reflexivity.
  destruct t as [|t].
  - injection Ht as ->.
    assert (E0 : sum_list (map remaining (<[0%nat := new]> (old :: ths)))
                 = (remaining new + sum_list (map remaining ths))%nat) by reflexivity.
    rewrite E, E0. sum_lia.
  - assert (E1 : sum_list (map remaining (<[S t := new]> (th :: ths)))
                 = (remaining th + sum_list (map remaining (<[t := new]> ths)))%nat)
      by reflexivity.
    rewrite E, E1. specialize (IH t Ht). revert IH. sum_lia.
Qed.

Lemma work_somewhere (ths : list Thread) :
  (0 < sum_list (map remaining ths))%nat ->
  exists t th, ths !! t = Some th /\ (0 < remaining th)%nat.
Proof.
  induction ths as [|th ths IH]; [cbn; lia|].
  change (sum_list (map remaining (th :: ths)))
    with (remaining th + sum_list (map remaining ths))%nat.
  intros Hpos. destruct (remaining th) as [|n] eqn:E.
  - destruct IH as (t & th' & Ht & Hr); [exact Hpos|]. exists (S t), th'. auto.
  - exists 0%nat, th. split; [reflexivity|lia].
Qed.

Lemma no_work_returned (s : System T) : work_left s = 0%nat -> all_returned s.
Proof.
  unfold work_left, all_returned. intros Hz i th Hi.
  destruct (pc th) eqn:Hp; try reflexivity; exfalso;
    pose proof (work_replaced _ i th (mkThread (request th) Returned None) Hi) as Hw;
    assert (Hpos : (0 < remaining th)%nat) by (unfold remaining; rewrite Hp; lia);
    cbn [remaining pc] in Hw; revert Hz Hw Hpos; generalize (remaining th);
    intros w; sum_lia.
Qed.

(** A step of a thread that is not waiting and has not returned is one
    step less to take. *)
Lemma step_works (t : nat) (s : System T) (th : Thread) :
  threads s !! t = Some th ->
  pc th <> Returned ->
  (pc th = Calling -> ws_send_lock s = None) ->
  S (work_left (step t s)) = work_left s.
Proof.
  intros Ht Hnr Hfree. unfold step, work_left. rewrite Ht.
  destruct th as [r p ky]. cbn [pc request key] in *.
  destruct p as [| |[|b todo]| |].
  - rewrite Hfree by reflexivity. cbn [threads].
    pose proof (work_replaced _ t _ (mkThread r Locked ky) Ht) as Hw.
    cbn [remaining pc request] in Hw. revert Hw. sum_lia.
  - cbn [draw_key threads].
    match goal with
    | |- context [<[t := mkThread r (Filling (frame_of r ?k)) ?ky']> _] =>
        pose proof (work_replaced _ t _ (mkThread r (Filling (frame_of r k)) ky') Ht)
          as Hw;
        pose proof (frame_of_length r k (mkKey "000" "000" "000" "000")) as Hk
    end.
    cbn [remaining pc request] in Hw. revert Hw Hk. sum_lia.
  - cbn [threads].
    pose proof (work_replaced _ t _ (mkThread r Handed ky) Ht) as Hw.
    cbn [remaining pc length] in Hw. revert Hw. sum_lia.
  - cbn [threads].
    pose proof (work_replaced _ t _ (mkThread r (Filling todo) ky) Ht) as Hw.
    cbn [remaining pc length] in Hw. revert Hw. sum_lia.
  - cbn [threads].
    pose proof (work_replaced _ t _ (mkThread r Returned ky) Ht) as Hw.
    cbn [remaining pc] in Hw. revert Hw. sum_lia.
  - contradiction.
Qed.

Lemma step_length (t : nat) (s : System T) :
  length (threads (step t s)) = length (threads s).
Proof.
  unfold step. destruct (threads s !! t) as [[r p ky]|]; [|reflexivity].
  cbn [pc]. destruct p as [| |[|b todo]| |]; try destruct (ws_send_lock s);
    cbn [draw_key threads]; try reflexivity; apply length_insert.
Qed.

Lemma step_holder_exists (t : nat) (s : System T) :
  holder_exists s -> holder_exists (step t s).
Proof.
  unfold holder_exists. intros Hs o. rewrite step_length.
  unfold step. destruct (threads s !! t) as [[r p ky]|] eqn:Ht; [|apply Hs].
  cbn [pc]. destruct p as [| |[|b todo]| |]; try destruct (ws_send_lock s) eqn:Hl;
    cbn [draw_key ws_send_lock]; try rewrite Hl; try apply Hs; try discriminate.
  intros [= <-]. eapply lookup_lt_Some, Ht.
Qed.

Lemma run_holder_exists (c : WSSClient.t T) (reqs : list Request)
    (schedule : list nat) :
  holder_exists (run schedule (init c reqs)).
Proof.
  unfold run.
  assert (Hi : holder_exists (init c reqs)) by (intros o; discriminate).
  revert Hi. generalize (init c reqs) as s.
  induction schedule as [|t schedule IH]; intros s Hs; [exact Hs|].
  cbn [fold_left]. apply IH, step_holder_exists, Hs.
Qed.

(** While there is work left some thread can move. *)
Lemma some_thread_moves (c0 : WSSClient.t T) (reqs : list Request) (s : System T) :
  invariant c0 reqs s -> holder_exists s -> (0 < work_left s)%nat ->
  exists t, S (work_left (step t s)) = work_left s.
Proof.
  intros (_ & Hlock & _) Hex Hwork.
  destruct (ws_send_lock s) as [o|] eqn:Hl.
  - destruct (lookup_lt_is_Some_2 (threads s) o (Hex o Hl)) as [th Ho].
    exists o. apply (step_works o s th Ho).
    + pose proof (proj2 (Hlock o th Ho) eq_refl) as Hin.
      unfold in_region in Hin. intros E. rewrite E in Hin. discriminate.
    + intros E. pose proof (proj2 (Hlock o th Ho) eq_refl) as Hin.
      unfold in_region in Hin. rewrite E in Hin. discriminate.
  - destruct (work_somewhere _ Hwork) as (t & th & Ht & Hr).
    exists t. apply (step_works t s th Ht); [|auto].
    intros E. unfold remaining in Hr. rewrite E in Hr. lia.
Qed.

(** From any state that keeps the invariant the calls can all be
    brought to their end, in as many steps as there is work left. *)
Lemma runs_to_the_end (c0 : WSSClient.t T) (reqs : list Request) (n : nat) :
  forall s, invariant c0 reqs s -> holder_exists s -> work_left s = n ->
  exists more, length more = n /\ all_returned (run more s).
Proof.
  induction n as [|n IH]; intros s Hinv Hex Hn.
  - exists []. split; [reflexivity|]. now apply no_work_returned.
  - destruct (some_thread_moves c0 reqs s Hinv Hex) as [t Ht]; [lia|].
    destruct (IH (step t s)) as (more & Hlen & Hdone).
    + now apply step_invariant.
    + now apply step_holder_exists.
    + lia.
    + exists (t :: more). split; [cbn; lia|exact Hdone].
Qed.

Lemma returned_unlocked (c0 : WSSClient.t T) (reqs : list Request) (s : System T) :
  invariant c0 reqs s -> holder_exists s -> all_returned s -> ws_send_lock s = None.
Proof.
  intros (_ & Hlock & _) Hex Hdone.
  destruct (ws_send_lock s) as [o|] eqn:Hl; [exfalso|reflexivity].
  destruct (lookup_lt_is_Some_2 (threads s) o (Hex o Hl)) as [th Ho].
  pose proof (proj2 (Hlock o th Ho) eq_refl) as Hin.
  unfold in_region in Hin. rewrite (Hdone o th Ho) in Hin. discriminate.
Qed.

End GateProgress.

(** X7. The send gate never gets stuck: however far concurrent calls of
    the send methods have got, under whatever interleaving, they can
    all be brought to return, in exactly as many further steps as the
    calls have left to take, and the lock is free when they have. *)
Theorem send_gate_completes {T : Type} `{HTTPSClient T} (c : WSSClient.t T)
    (reqs : list Request) (schedule : list nat) :
  exists more,
    length more = work_left (run schedule (init c reqs))
    /\ all_returned (run (schedule ++ more) (init c reqs))
    /\ ws_send_lock (run (schedule ++ more) (init c reqs)) = None.
Proof.
  destruct (runs_to_the_end c reqs _ (run schedule (init c reqs))
              (run_invariant c reqs schedule) (run_holder_exists c reqs schedule)
              eq_refl) as (more & Hlen & Hdone).
  exists more. rewrite run_app. split; [exact Hlen|split; [exact Hdone|]].
  rewrite <- run_app in *.
  eapply returned_unlocked; [apply run_invariant|apply run_holder_exists|exact Hdone].
Qed.

(** ** The send gate: concurrent calls are calls in some sequence *)

Section GateSerial.
Context {T : Type} `{HTTPSClient T}.

Lemma set_buffer_over (y z : list byte) (c x : WSSClient.t T) :
  c = set_buffer z x -> set_buffer y c = set_buffer y x.
Proof.
  now intros ->.
Qed.

(** The steps of [PrepareSendFrame] add up to the whole of it. *)
Lemma prepared_in_steps (r : Request) (c : WSSClient.t T) :
  set_buffer (frame_of r (ws_random c (ws_random_pos c)))
    (snd (draw_key (set_buffer [] c)))
  = PrepareSendFrame (rq_opcode r) (rq_buffer r) (rq_size r) (rq_status r) c.
Proof.
  reflexivity.
Qed.

Lemma sent_order_kept (ths : list Thread) (t : nat) (old new : Thread)
    (order : list nat) :
  ths !! t = Some old ->
  has_sent new = has_sent old ->
  (forall i, i ∈ order <-> exists th, ths !! i = Some th /\ has_sent th = true) ->
  forall i, i ∈ order <->
            exists th, <[t := new]> ths !! i = Some th /\ has_sent th = true.
Proof.
  intros Hold Hsent Hord i. rewrite Hord. split.
  - intros (th & Hth & Hs). destruct (decide (i = t)) as [->|Hne].
    + exists new. rewrite (lookup_replaced _ _ _ _ _ _ Hold).
      split; [auto|]. rewrite Hsent. congruence.
    + exists th. rewrite (lookup_replaced _ _ _ _ _ _ Hold). auto.
  - intros (th & Hth & Hs).
    apply (lookup_replaced _ _ _ _ _ _ Hold) in Hth as [[-> ->]|[Hne Hth]].
    + exists old. split; [assumption|congruence].
    + exists th. auto.
Qed.

Lemma holder_replaced (c : WSSClient.t T) (ths : list Thread) (t : nat)
    (old new : Thread) :
  ths !! t = Some old ->
  holder (mkSystem c (Some t) (<[t := new]> ths)) = Some new.
Proof.
  intros Hold. unfold holder. cbn [ws_send_lock threads].
  apply list_lookup_insert_eq. eapply lookup_lt_Some, Hold.
Qed.

Lemma perform_in_snoc (reqs : list Request) (order : list nat) (t : nat)
    (r : Request) (c : WSSClient.t T) :
  reqs !! t = Some r ->
  perform_in reqs (order ++ [t]) c = perform r (perform_in reqs order c).
Proof.
  intros Hr. unfold perform_in. rewrite fold_left_app. cbn [fold_left].
  now rewrite Hr.
Qed.

(** Every step keeps the client in line with the calls in sequence. *)
Lemma step_serial (c0 : WSSClient.t T) (reqs : list Request) (t : nat)
    (s : System T) :
  invariant c0 reqs s -> serial c0 reqs s -> serial c0 reqs (step t s).
Proof.
  intros (Hreq & Hlock & Hfill & _) Hser.
  pose proof Hser as (order & Hnd & Hord & Hcl).
  unfold step.
  destruct (threads s !! t) as [[r p ky]|] eqn:Ht; [|exact Hser].
  cbn [pc request key].
  pose proof (Hlock t _ Ht) as Hlt. cbn [in_region pc] in Hlt.
  assert (Hmine : in_region (mkThread r p ky) = true -> holder s = Some (mkThread r p ky)).
  { intros Hin. unfold holder. now rewrite (proj1 (Hlock t _ Ht) Hin). }
  destruct p as [| |[|b todo]| |].
  - (* Calling *)
    destruct (ws_send_lock s) as [o|] eqn:Hl; [exact Hser|].
    exists order. split; [assumption|split].
    + apply (sent_order_kept _ _ _ _ _ Ht); auto.
    + rewrite (holder_replaced _ _ _ _ _ Ht).
      unfold holder in Hcl. rewrite Hl in Hcl. exact Hcl.
  - (* Locked *)
    rewrite (Hmine eq_refl) in Hcl.
    assert (Hme : ws_send_lock s = Some t) by (now apply Hlt).
    cbn [draw_key]. rewrite Hme.
    exists order. split; [assumption|split].
    + apply (sent_order_kept _ _ _ _ _ Ht); auto.
    + rewrite (holder_replaced _ _ _ _ _ Ht). cbn [SendGate.client].
      rewrite Hcl. split; reflexivity.
  - (* Filling, nothing left: hand-over *)
    rewrite (Hmine eq_refl) in Hcl. destruct Hcl as [Hky Hcl].
    assert (Hme : ws_send_lock s = Some t) by (now apply Hlt).
    destruct (Hfill t _ [] Ht eq_refl) as (k & Hk & Hbuf).
    cbn [key request] in Hk, Hbuf. rewrite app_nil_r in Hbuf.
    assert (Hr : reqs !! t = Some r).
    { rewrite <- Hreq. change (map request (threads s)) with (request <$> threads s).
      now rewrite list_lookup_fmap, Ht. }
    assert (Hprep : SendGate.client s
                    = PrepareSendFrame (rq_opcode r) (rq_buffer r) (rq_size r)
                        (rq_status r) (perform_in reqs order c0)).
    { rewrite <- prepared_in_steps. rewrite Hcl at 1. rewrite Hbuf.
      congruence. }
    rewrite Hme. exists (order ++ [t]).
    assert (Hnew : t ∉ order).
    { rewrite Hord. intros (th & Hth & Hs). rewrite Ht in Hth.
      injection Hth as <-. discriminate. }
    split; [|split].
    + apply NoDup_app. split; [assumption|]. split; [|apply NoDup_singleton].
      intros x Hx ->%list_elem_of_singleton. contradiction.
    + intros i. cbn [threads].
      rewrite elem_of_app, list_elem_of_singleton, Hord. split.
      * intros [(th & Hth & Hs)| ->].
        -- exists th. rewrite (lookup_replaced _ _ _ _ _ _ Ht).
           split; [|assumption]. right. split; [|assumption].
           intros ->. rewrite Ht in Hth. injection Hth as <-. discriminate.
        -- eexists. rewrite (lookup_replaced _ _ _ _ _ _ Ht).
           split; [left; split; reflexivity|reflexivity].
      * intros (th & Hth & Hs).
        apply (lookup_replaced _ _ _ _ _ _ Ht) in Hth as [[-> ->]|[Hne Hth]];
          [right; reflexivity|left; eauto].
    + rewrite (holder_replaced _ _ _ _ _ Ht). cbn [SendGate.client].
      rewrite (perform_in_snoc _ _ _ _ _ Hr). unfold perform. now rewrite Hprep.
  - (* Filling: one more byte *)
    rewrite (Hmine eq_refl) in Hcl. destruct Hcl as [Hky Hcl].
    assert (Hme : ws_send_lock s = Some t) by (now apply Hlt).
    rewrite Hme. exists order. split; [assumption|split].
    + apply (sent_order_kept _ _ _ _ _ Ht); auto.
    + rewrite (holder_replaced _ _ _ _ _ Ht). cbn [SendGate.client].
      split; [assumption|].
      cbn [set_buffer ws_send_buffer].
      apply (set_buffer_over _ _ _ _ Hcl).
  - (* Handed: unlock *)
    rewrite (Hmine eq_refl) in Hcl.
    exists order. split; [assumption|split].
    + apply (sent_order_kept _ _ _ _ _ Ht); auto.
    + unfold holder. cbn [ws_send_lock SendGate.client]. exact Hcl.
  - exact Hser.
Qed.

Lemma run_serial (c : WSSClient.t T) (reqs : list Request) (schedule : list nat) :
  serial c reqs (run schedule (init c reqs)).
Proof.
  unfold run.
  assert (Hi : serial c reqs (init c reqs)).
  { exists []. split; [constructor|split].
    - intros i. split; [intros Hi; inversion Hi|].
      intros (th & Hi & Hs). cbn [init threads] in Hi.
      change (((fun r => mkThread r Calling None) <$> reqs) !! i = Some th) in Hi.
      rewrite list_lookup_fmap in Hi. destruct (reqs !! i); [|discriminate].
      injection Hi as <-. discriminate.
    - reflexivity. }
  generalize (init_invariant c reqs). revert Hi.
  generalize (init c reqs) as s.
  induction schedule as [|t schedule IH]; intros s Hs Hinv; [exact Hs|].
  cbn [fold_left]. apply IH; [now apply step_serial|now apply step_invariant].
Qed.

(** A request of the gate served in one go is the method call it stands
    for. *)
Lemma perform_request_of (m : MethodCall) (c : WSSClient.t T) :
  perform (request_of m) c = snd (invoke m c).
Proof.
  unfold invoke. rewrite call_buffer_unfold.
  unfold perform, request_of, hand_over, HTTPSClient_Send, HTTPSClient_SendTimeout,
    HTTPSClient_SendAsync, transport_result, with_transport, PrepareSendFrame.
  cbn [rq_mode rq_opcode rq_buffer rq_size rq_status ws_send_buffer transport calls
       ws_random ws_random_pos sync_connect errors].
  destruct (mc_variant m) as [|timeout|]; cbn [mode_of variant_call].
  - destruct (Send _ _); reflexivity.
  - destruct (SendTimeout _ _ _); reflexivity.
  - destruct (SendAsync _ _); reflexivity.
Qed.

Lemma perform_in_send_all (ms : list MethodCall) (order : list nat)
    (c : WSSClient.t T) :
  perform_in (map request_of ms) order c
  = send_all (omap (fun i => ms !! i) order) c.
Proof.
  revert c. induction order as [|i order IH]; intros c; [reflexivity|].
  change (perform_in (map request_of ms) (i :: order) c)
    with (perform_in (map request_of ms) order
            (match (request_of <$> ms) !! i with
             | Some r => perform r c
             | None => c
             end)).
  change (omap (fun i => ms !! i) (i :: order))
    with (match ms !! i with
          | Some m => m :: omap (fun i => ms !! i) order
          | None => omap (fun i => ms !! i) order
          end).
  rewrite list_lookup_fmap.
  destruct (ms !! i) as [m|]; cbn [fmap option_fmap option_map]; [|apply IH].
  change (send_all (m :: omap (fun i => ms !! i) order) c)
    with (send_all (omap (fun i => ms !! i) order) (snd (invoke m c))).
  rewrite perform_request_of. apply IH.
Qed.

End GateSerial.

(** X8. Concurrent calls of the send methods are calls in some
    sequence: once they have all returned, whatever the interleaving
    was, the client (transport, send buffer, random source, record of
    transport calls) is exactly the one that the same calls leave when
    made one after the other in some order, each call appearing once;
    and the lock is free. *)
Theorem concurrent_calls_are_serial {T : Type} `{HTTPSClient T} (c : WSSClient.t T)
    (ms : list MethodCall) (schedule : list nat) :
  let s := run schedule (init c (map request_of ms)) in
  all_returned s ->
  exists order,
    order ≡ₚ seq 0 (length ms)
    /\ SendGate.client s = send_all (omap (fun i => ms !! i) order) c
    /\ ws_send_lock s = None.
Proof.
  intros s Hdone.
  pose proof (run_invariant c (map request_of ms) schedule) as Hinv.
  pose proof (run_holder_exists c (map request_of ms) schedule) as Hex.
  destruct (run_serial c (map request_of ms) schedule) as (order & Hnd & Hord & Hcl).
  fold s in Hinv, Hex, Hord, Hcl.
  assert (Hfree : ws_send_lock s = None) by (eapply returned_unlocked; eassumption).
  assert (Hlen : length (threads s) = length ms).
  { destruct Hinv as (Hreq & _).
    rewrite <- (length_map request), Hreq. apply length_map. }
  exists order. split; [|split; [|exact Hfree]].
  - apply NoDup_Permutation; [assumption|apply NoDup_seq|].
    intros i. rewrite Hord, elem_of_seq. split.
    + intros (th & Hth & _). apply lookup_lt_Some in Hth. lia.
    + intros Hi.
      destruct (lookup_lt_is_Some_2 (threads s) i) as [th Hth]; [lia|].
      exists th. split; [assumption|].
      unfold has_sent. now rewrite (Hdone i th Hth).
  - unfold holder in Hcl. rewrite Hfree in Hcl.
    rewrite Hcl. apply perform_in_send_all.
Qed.

Lemma concurrent_calls_are_serial_witness :
  let ms := [mkCall OpText Plain (sv_data "AAA") 3; mkCall OpText Plain (sv_data "BBB") 3] in
  exists order,
    order ≡ₚ [0; 1]%nat
    /\ SendGate.client (run (H := pipe) contended
                          (init (sample_client true) (map request_of ms)))
       = send_all (H := pipe) (omap (fun i => ms !! i) order) (sample_client true).
Proof.
  intros ms.
  destruct (concurrent_calls_are_serial (H := pipe) (sample_client true) ms contended)
    as (order & Hperm & Hc & _).
  - intros i th. vm_compute.
    destruct i as [|[|i]]; intros [= <-]; reflexivity.
  - exists order. split; [exact Hperm|exact Hc].
Defined.

(** * Examples *)

Module Examples.

(** [SendText("Hi")] framed under the sample key: fin and opcode, mask
    bit and length 2, the key, the masked payload. *)
Example encode_hi :
  map val (Encode Text (sv_data "Hi") None sample_key)
  = [129; 130; 55; 250; 33; 61; 127; 147].
Proof. vm_compute. reflexivity. Qed.

(** A frame whose payload has not fully arrived is left for later. *)
Example decode_partial_payload :
  Decode ["129"; "005"; "H"; "e"]%byte = Decoded [] ["129"; "005"; "H"; "e"]%byte.
Proof. vm_compute. reflexivity. Qed.

(** An unmasked Close frame with status 1001, as a server sends it. *)
Example decode_server_close :
  Decode ["136"; "002"; "003"; "233"]%byte = Decoded [close_1001] [].
Proof. vm_compute. reflexivity. Qed.

(** A length of 2^64 - 1 overflows, a header of one byte is cut short. *)
Example decode_overflow :
  Decode (["129"; "127"] ++ repeat "255" 8)%byte = ProtocolError LengthOverflow.
Proof. vm_compute. reflexivity. Qed.

Example decode_truncated : Decode ["129"]%byte = ProtocolError TruncatedHeader.
Proof. vm_compute. reflexivity. Qed.

(** Disconnect on a transport that is down: nothing is written, the
    Close frame was still handed over, and the result is the
    transport's. *)
Example disconnect_when_down :
  let '(ok, c) := WSSClient.Disconnect (H := pipe) (sample_client false) in
  ok = false
  /\ written (transport c) = []
  /\ calls c = [CallSend (close_1000 (sample_client false)); CallDisconnect]
  /\ fst (SendClose (H := pipe) 1000 nullptr 0 (sample_client false)) = 0.
Proof. vm_compute. repeat split. Qed.

Example disconnect_when_up :
  let '(ok, c) := WSSClient.Disconnect (H := pipe) (sample_client true) in
  ok = true
  /\ written (transport c) = close_1000 (sample_client true)
  /\ Decode (written (transport c))
     = Decoded [mkFrame Close true ["003"; "232"]%byte (Some 1000)] [].
Proof. vm_compute. repeat split. Qed.

(** A Close frame with status 1001 arrives on an open connection. *)
Example close_1001_received :
  let e := onReceived (H := pipe) ["136"; "002"; "003"; "233"]%byte (sample_engine Open) in
  calls (Engine.client e)
    = [CallSendAsync (Encode Close [] (Some 1001) sample_key); CallDisconnectAsync]
  /\ state e = ClosingRemote
  /\ state (onDisconnected e) = Closed.
Proof. vm_compute. repeat split. Qed.

(** A Close frame without status is answered with status 1000. *)
Example close_without_status_received :
  let e := onReceived (H := pipe) ["136"; "000"]%byte (sample_engine Open) in
  calls (Engine.client e)
    = [CallSendAsync (Encode Close [] (Some 1000) sample_key); CallDisconnectAsync].
Proof. vm_compute. reflexivity. Qed.

(** A Pong, a Close frame with status 1001 and a stray byte in one
    delivery: the Close frame is answered, then the stray byte, a
    header cut short, closes the connection. *)
Example close_then_stray_byte_received :
  let e := onReceived (H := pipe) close_then_stray_byte (sample_engine Open) in
  calls (Engine.client e)
    = [CallSendAsync (Encode Close [] (Some 1001) sample_key); CallDisconnectAsync;
       CallDisconnectAsync]
  /\ state e = Closed
  /\ length (errors (Engine.client e)) = 1%nat.
Proof. vm_compute. repeat split. Qed.

(** A Close frame whose payload arrives in two deliveries is answered
    when the second one completes it. *)
Example close_in_two_deliveries :
  let e1 := onReceived (H := pipe) ["136"; "002"; "003"]%byte (sample_engine Open) in
  let e2 := onReceived (H := pipe) ["233"]%byte e1 in
  calls (Engine.client e1) = []
  /\ received e1 = ["136"; "002"; "003"]%byte
  /\ calls (Engine.client e2)
     = [CallSendAsync (Encode Close [] (Some 1001) sample_key); CallDisconnectAsync]
  /\ state e2 = ClosingRemote.
Proof. vm_compute. repeat split. Qed.

(** A text message in three fragments is delivered once, whole. *)
Example fragments_reassembled :
  queue (onReceived (H := pipe)
           ["001"; "002"; "H"; "e"; "000"; "002"; "l"; "l"; "128"; "001"; "o"]%byte
           (sample_engine Open))
  = [mkMessage TextMessage ["H"; "e"; "l"; "l"; "o"]%byte].
Proof. vm_compute. reflexivity. Qed.

(** A message that arrives during tick 3 of a receive with timeout 10
    wakes the caller at tick 4. *)
Example receive_wakes_on_message :
  let io n := if (n =? 3)%nat then [IoReceived ["129"; "002"; "H"; "i"]%byte] else [] in
  ReceiveText_t (H := pipe) 10%Z io 0 (sample_engine Open)
  = ("Hi"%string, 4%nat, sample_engine Open).
Proof. vm_compute. reflexivity. Qed.

(** A disconnect during tick 3 wakes it empty-handed. *)
Example receive_wakes_on_disconnect :
  let io n := if (n =? 3)%nat then [IoDisconnected] else [] in
  ReceiveText_t (H := pipe) 10%Z io 0 (sample_engine Open)
  = (""%string, 4%nat, sample_engine Closed).
Proof. vm_compute. reflexivity. Qed.

(** The contended run of the two senders: thread 1 got the lock first,
    so the frame of "BBB" is handed over first, whole, then that of
    "AAA". *)
Example contended_run :
  calls (SendGate.client
           (run (H := pipe) contended (init (sample_client true) two_senders)))
  = [CallSend (frame_of (send_text "BBB") sample_key);
     CallSend (frame_of (send_text "AAA") sample_key)].
Proof. vm_compute. reflexivity. Qed.

End Examples.
